(** * PandaWiki: conversation analytics and retention

    A shallow embedding of

    - [handler/mq/stat.go]: the statistics retention sweep, and
    - the conversation use case (package [usecase]): reference
      extraction from an answer text, conversation creation with
      best-effort geo enrichment, listing, detail retrieval and the
      nonce gate,

    together with the properties of the specification that concern them.
    The definitions come first, the lemmas and theorems after them. *)

From Stdlib Require Import ZArith Ascii String List Bool Lia.
From stdpp Require Import base gmap strings list fin_maps.

(** ** Strings as Go has them

    A Go string is a sequence of bytes; [text[i:]] slices by byte offset
    and the offsets [regexp] reports are byte offsets.  [string] is the
    Standard Library's list of [ascii] (8-bit) characters. *)

Fixpoint drop_str (n : nat) (s : string) : string :=
  match n, s with
  | O, _ => s
  | S _, EmptyString => EmptyString
  | S n', String _ s' => drop_str n' s'
  end.

Fixpoint take_str (n : nat) (s : string) : string :=
  match n, s with
  | O, _ => EmptyString
  | S _, EmptyString => EmptyString
  | S n', String c s' => String c (take_str n' s')
  end.

(** ** The fragment of Go's [regexp] syntax the two patterns use

    Go's [regexp] gives the match a backtracking search finds first
    (leftmost-first): alternatives are tried left to right, a greedy
    repetition tries one more iteration before it tries to stop, a lazy one
    tries to stop first.  The patterns contain literal ASCII characters and
    the classes [\s], [\d] and [.]; no literal can equal a UTF-8
    continuation byte, so matching byte by byte finds the same spans as
    matching rune by rune. *)

Module Regexp.

(** [\s] is [[\t\n\f\r ]], [\d] is [[0-9]]; [.] matches a newline only
    under the [s] flag. *)
Inductive cclass : Type :=
| Space
| Digit
| Dot (s_flag : bool).

Definition newline : ascii := "010"%char.

Definition is_space (c : ascii) : bool :=
  let n := nat_of_ascii c in
  (n =? 9)%nat || (n =? 10)%nat || (n =? 12)%nat || (n =? 13)%nat || (n =? 32)%nat.

Definition is_digit (c : ascii) : bool :=
  let n := nat_of_ascii c in
  (48 <=? n)%nat && (n <=? 57)%nat.

Definition class_mem (k : cclass) (c : ascii) : bool :=
  match k with
  | Space => is_space c
  | Digit => is_digit c
  | Dot s_flag => s_flag || negb (Ascii.eqb c newline)
  end.

Inductive regex : Type :=
| Eps
| Chr (c : ascii)
| Cls (k : cclass)
| Cat (r1 r2 : regex)
| Alt (r1 r2 : regex)
| Star (greedy : bool) (r : regex)
| Grp (n : nat) (r : regex)
| Bol
| Eol.

(** [x+] is [xx*] and [x?] is [x|()] ([()|x] when lazy). *)
Definition Plus (greedy : bool) (r : regex) : regex := Cat r (Star greedy r).
Definition Opt (greedy : bool) (r : regex) : regex :=
  if greedy then Alt r Eps else Alt Eps r.

Fixpoint Lits (s : string) : regex :=
  match s with
  | EmptyString => Eps
  | String c EmptyString => Chr c
  | String c s' => Cat (Chr c) (Lits s')
  end.

(** A position in the subject: the byte before it, if any, and the text
    from it on. *)
Record input : Type := mkInput { prev : option ascii; rest : string }.

Definition advance (c : ascii) (s : string) : input := mkInput (Some c) s.

(** [^] and [$] under the [m] flag: at the beginning of the text or just
    after a newline; at the end of the text or just before a newline. *)
Definition at_bol (i : input) : bool :=
  match prev i with
  | None => true
  | Some c => Ascii.eqb c newline
  end.

Definition at_eol (i : input) : bool :=
  match rest i with
  | EmptyString => true
  | String c _ => Ascii.eqb c newline
  end.

(** A capture is recorded as the text remaining at its two ends. *)
Definition captures : Type := list (nat * (string * string)).

Definition orElse {A : Type} (x y : option A) : option A :=
  match x with
  | Some _ => x
  | None => y
  end.

(** The loop of a repetition over a matcher [body] for one iteration.  An
    iteration has to consume input; the counter starts above the length
    of the remaining text and so is never exhausted. *)
Fixpoint star_loop {A : Type} (greedy : bool)
         (body : input -> captures -> (input -> captures -> option A) -> option A)
         (k : input -> captures -> option A)
         (n : nat) (i : input) (cs : captures) {struct n} : option A :=
  match n with
  | O => k i cs
  | S n' =>
      let again :=
        body i cs
          (fun i' cs' =>
             if (String.length (rest i') <? String.length (rest i))%nat
             then star_loop greedy body k n' i' cs' else None) in
      if greedy then orElse again (k i cs) else orElse (k i cs) again
  end.

(** The backtracking search, in continuation-passing style. *)
Fixpoint exec {A : Type} (r : regex) (i : input) (cs : captures)
         (k : input -> captures -> option A) {struct r} : option A :=
  match r with
  | Eps => k i cs
  | Chr c =>
      match rest i with
      | String c' s' => if Ascii.eqb c c' then k (advance c' s') cs else None
      | EmptyString => None
      end
  | Cls cl =>
      match rest i with
      | String c' s' => if class_mem cl c' then k (advance c' s') cs else None
      | EmptyString => None
      end
  | Cat r1 r2 => exec r1 i cs (fun i' cs' => exec r2 i' cs' k)
  | Alt r1 r2 => orElse (exec r1 i cs k) (exec r2 i cs k)
  | Star greedy r1 =>
      star_loop greedy (exec r1) k (S (String.length (rest i))) i cs
  | Grp n r1 =>
      exec r1 i cs (fun i' cs' => k i' ((n, (rest i, rest i')) :: cs'))
  | Bol => if at_bol i then k i cs else None
  | Eol => if at_eol i then k i cs else None
  end.

(** An anchored attempt at one position: the text remaining after the
    match and the captures. *)
Definition match_here (r : regex) (i : input) : option (string * captures) :=
  exec r i [] (fun i' cs => Some (rest i', cs)).

(** One match: start offset, end offset, and the subject from the start
    of the match with its captures. *)
Record found : Type :=
  mkFound { f_start : nat; f_end : nat; f_text : string; f_caps : captures }.

(** Where the scan stands with respect to the previous match: [Within k]
    has [k] more bytes of it to step over, so [Within 0] is exactly its
    end. *)
Inductive cursor : Type :=
| Free
| Within (k : nat).

(** [allMatches]: successive non-overlapping matches, each the leftmost
    one at or after the end of the previous; an empty match directly
    after a match is dropped. *)
Fixpoint scan (r : regex) (p : option ascii) (s : string) (off : nat)
         (cur : cursor) {struct s} : list found :=
  let next (cur' : cursor) : list found :=
    match s with
    | String c s' => scan r (Some c) s' (S off) cur'
    | EmptyString => []
    end in
  match cur with
  | Within (S k) => next (Within k)
  | _ =>
      match match_here r (mkInput p s) with
      | Some (s', cs) =>
          match (String.length s - String.length s')%nat with
          | S n => mkFound off (off + S n) s cs :: next (Within n)
          | O =>
              match cur with
              | Within _ => next Free
              | Free => mkFound off off s cs :: next Free
              end
          end
      | None => next Free
      end
  end.

Definition allMatches (r : regex) (s : string) : list found :=
  scan r None s 0 Free.

(** [FindAllStringIndex(s, -1)]: the [start, end) offsets of every match. *)
Definition FindAllStringIndex (r : regex) (s : string) : list (nat * nat) :=
  map (fun m => (f_start m, f_end m)) (allMatches r s).

(** The text of group [n] of a match; the whole match is group 0.  A
    group that took no part in the match gives the empty string. *)
Definition group_text (m : found) (n : nat) : string :=
  match n with
  | O => take_str (f_end m - f_start m) (f_text m)
  | _ =>
      match List.find (fun c => (fst c =? n)%nat) (f_caps m) with
      | Some (_, (s1, s2)) => take_str (String.length s1 - String.length s2) s1
      | None => EmptyString
      end
  end.

(** [FindAllStringSubmatch(s, -1)] for a pattern with [ngroups] groups:
    per match, the text of the match and of every group. *)
Definition FindAllStringSubmatch (r : regex) (ngroups : nat) (s : string)
  : list (list string) :=
  map (fun m => map (group_text m) (seq 0 (S ngroups))) (allMatches r s).

End Regexp.

(** ** Domain records

    Package [domain] is not among the sources.  A field a struct literal
    leaves out has Go's zero value: the empty string, or [None] for a nil
    pointer. *)

(** Modelled from the spec: the declaration of [domain.ConversationReference]
    is missing; its fields are those of the spec's data model (owning
    conversation, owning application, display name, target URL, ordinal). *)
Record ConversationReference : Type := mkConversationReference {
  ref_ConversationID : string;
  ref_AppID : string;
  ref_Name : string;
  ref_URL : string;
  ref_Ordinal : string
}.

(** ** Reference extraction *)

Import Regexp.

Definition Seq (rs : list regex) : regex := foldr Cat Eps rs.

(** [(?:>|\\u003e)]: a blockquote sigil, or the six characters of its
    escaped form (a backslash, then [u003e]). *)
Definition quoteMarker : regex :=
  Alt (Chr ">") (Lits (String "\" "u003e")).

(** [(?ms)((?:>|\\u003e)\s*\[\d+\]\.\s*\[.*?\]\(.*?\)\s*\n?)+$] *)
Definition reBlock : regex :=
  Seq [ Plus true
          (Grp 1
             (Seq [ quoteMarker; Star true (Cls Space);
                    Chr "["; Plus true (Cls Digit); Chr "]"; Chr ".";
                    Star true (Cls Space);
                    Chr "["; Star false (Cls (Dot true)); Chr "]";
                    Chr "("; Star false (Cls (Dot true)); Chr ")";
                    Star true (Cls Space); Opt true (Chr newline) ]));
        Eol ].

(** [(?m)^(?:>|\\u003e)\s*\[(\d+)\]\.\s*\[(.*?)\]\((.*?)\)] *)
Definition reLine : regex :=
  Seq [ Bol; quoteMarker; Star true (Cls Space);
        Chr "["; Grp 1 (Plus true (Cls Digit)); Chr "]"; Chr ".";
        Star true (Cls Space);
        Chr "["; Grp 2 (Star false (Cls (Dot false))); Chr "]";
        Chr "("; Grp 3 (Star false (Cls (Dot false))); Chr ")" ].

(** The reference one line match contributes: [match[2]] and [match[3]]
    become the name and the URL; [match[1]], the citation number, is not
    stored. *)
Definition reference_of (conversationID appID : string) (match_ : list string)
  : ConversationReference :=
  {| ref_Name := nth 2 match_ EmptyString;
     ref_URL := nth 3 match_ EmptyString;
     ref_ConversationID := conversationID;
     ref_AppID := appID;
     ref_Ordinal := EmptyString |}.

(** The loop over the line matches of [block]. *)
Definition references_of_block (conversationID appID block : string)
  : list ConversationReference :=
  let matches := FindAllStringSubmatch reLine 3 block in
  fold_left
    (fun refs match_ =>
       if (length match_ =? 4)%nat
       then refs ++ [reference_of conversationID appID match_]
       else refs)
    matches [].

(** A nil slice and an empty slice are both the empty list. *)
Definition extractReferencesBlock (conversationID appID text : string)
  : list ConversationReference :=
  let allMatches := FindAllStringIndex reBlock text in
  let lastIndex : Z :=
    match last allMatches with
    | Some m => Z.of_nat (fst m)
    | None => (-1)%Z
    end in
  if (lastIndex =? -1)%Z then []
  else
    let block := drop_str (Z.to_nat lastIndex) text in
    references_of_block conversationID appID block.

(** ** The conversation use case and the retention sweep

    The repositories ([repo/pg], [repo/cache], [repo/ipdb]), the logger
    and package [domain] are not among the sources.  The records below
    carry the fields the code reads or writes and those the spec's data
    model names. *)

(** A Go [error] value. *)
Inductive error : Type := mkError (msg : string).

Definition error_msg (e : error) : string := let 'mkError m := e in m.

Record IPAddress : Type := mkIPAddress {
  ip_IP : string;
  ip_Country : string;
  ip_Province : string;
  ip_City : string
}.

Record Conversation : Type := mkConversation {
  conv_ID : string;
  conv_KBID : string;
  conv_RemoteIP : string;
  conv_Nonce : string;
  conv_CreatedAt : Z
}.

Record ConversationMessage : Type := mkConversationMessage {
  msg_ID : string;
  msg_ConversationID : string;
  msg_AppID : string;
  msg_Role : string;
  msg_Content : string;
  msg_CreatedAt : Z
}.

Record ConversationListItem : Type := mkConversationListItem {
  li_ID : string;
  li_RemoteIP : string;
  li_IPAddress : option IPAddress;
  li_CreatedAt : Z
}.

Record ConversationListReq : Type := mkConversationListReq {
  req_KBID : string;
  req_Page : nat;
  req_PerPage : nat
}.

Record PaginatedResult (A : Type) : Type := NewPaginatedResult {
  pr_Data : A;
  pr_Total : Z
}.
Arguments NewPaginatedResult {A} _ _.
Arguments pr_Data {A} _.
Arguments pr_Total {A} _.

Record ConversationDetailResp : Type := mkConversationDetailResp {
  d_ID : string;
  d_KBID : string;
  d_RemoteIP : string;
  d_IPAddress : option IPAddress;
  d_Messages : list ConversationMessage;
  d_References : list ConversationReference;
  d_CreatedAt : Z
}.

Record StatRecord : Type := mkStatRecord {
  st_ID : nat;
  st_CreatedAt : Z
}.

(** [conversation.IPAddress = ...] and the like: assignment to one field. *)
Definition li_set_IPAddress (a : option IPAddress) (c : ConversationListItem)
  : ConversationListItem :=
  mkConversationListItem (li_ID c) (li_RemoteIP c) a (li_CreatedAt c).

Definition d_set_IPAddress (a : option IPAddress) (c : ConversationDetailResp)
  : ConversationDetailResp :=
  mkConversationDetailResp (d_ID c) (d_KBID c) (d_RemoteIP c) a
    (d_Messages c) (d_References c) (d_CreatedAt c).

Definition d_set_Messages (ms : list ConversationMessage) (c : ConversationDetailResp)
  : ConversationDetailResp :=
  mkConversationDetailResp (d_ID c) (d_KBID c) (d_RemoteIP c) (d_IPAddress c)
    ms (d_References c) (d_CreatedAt c).

Definition d_set_References (rs : list ConversationReference)
           (c : ConversationDetailResp) : ConversationDetailResp :=
  mkConversationDetailResp (d_ID c) (d_KBID c) (d_RemoteIP c) (d_IPAddress c)
    (d_Messages c) rs (d_CreatedAt c).

(** *** The world the handlers act on *)

Inductive level : Type := Info | Warn | Error.

Record entry : Type := mkEntry {
  e_level : level;
  e_msg : string;
  e_fields : list (string * string)
}.

(** The calls made on the collaborators. *)
Inductive call : Type :=
| RepoCreateConversation (c : Conversation)
| RepoCreateConversationMessage (m : ConversationMessage)
    (refs : list ConversationReference)
| RepoGetConversationList (req : ConversationListReq)
| RepoGetConversationDetail (id : string)
| RepoGetConversationMessagesByID (id : string)
| RepoGetConversationReferences (id : string)
| RepoValidateConversationNonce (id nonce : string)
| IPGetIPAddress (ip : string)
| GeoSetGeo (kbID location : string)
| StatRemoveOldData.

(** What the handlers can change or observe: the calls issued and the log
    written so far (oldest first), the geo cache, the stored conversations,
    the nonces with their consumed flag, the stat records, and the clock
    (seconds). *)
Record World : Type := mkWorld {
  w_calls : list call;
  w_log : list entry;
  w_geo : gmap string string;
  w_conversations : list Conversation;
  w_nonces : gmap string (string * bool);
  w_stats : list StatRecord;
  w_now : Z
}.

Definition M (A : Type) : Type := World -> A * World.

Definition ret {A : Type} (a : A) : M A := fun w => (a, w).

Definition bind {A B : Type} (m : M A) (k : A -> M B) : M B :=
  fun w => let (a, w') := m w in k a w'.

Notation "'let*' x := m 'in' k" := (bind m (fun x => k))
  (at level 10, x name, m at level 100, k at level 200).
Notation "'let*' ' p := m 'in' k" := (bind m (fun x => match x with p => k end))
  (at level 10, p pattern, m at level 100, k at level 200).

Definition issue (c : call) : M unit := fun w =>
  (tt, mkWorld (w_calls w ++ [c]) (w_log w) (w_geo w) (w_conversations w)
         (w_nonces w) (w_stats w) (w_now w)).

Definition logger (lv : level) (msg : string) (fields : list (string * string))
  : M unit := fun w =>
  (tt, mkWorld (w_calls w) (w_log w ++ [mkEntry lv msg fields]) (w_geo w)
         (w_conversations w) (w_nonces w) (w_stats w) (w_now w)).

Definition set_geo (g : gmap string string) : M unit := fun w =>
  (tt, mkWorld (w_calls w) (w_log w) g (w_conversations w)
         (w_nonces w) (w_stats w) (w_now w)).

Definition set_conversations (cs : list Conversation) : M unit := fun w =>
  (tt, mkWorld (w_calls w) (w_log w) (w_geo w) cs
         (w_nonces w) (w_stats w) (w_now w)).

Definition set_nonces (ns : gmap string (string * bool)) : M unit := fun w =>
  (tt, mkWorld (w_calls w) (w_log w) (w_geo w) (w_conversations w)
         ns (w_stats w) (w_now w)).

Definition set_stats (ss : list StatRecord) : M unit := fun w =>
  (tt, mkWorld (w_calls w) (w_log w) (w_geo w) (w_conversations w)
         (w_nonces w) ss (w_now w)).

Definition get : M World := fun w => (w, w).

(** [log.Error(err)] and [log.String(key, value)]. *)
Definition log_Error (e : error) : string * string := ("error", error_msg e).
Definition log_String (key value : string) : string * string := (key, value).

Section Handlers.

(** How the collaborators answer: the failure, if any, of a write; the
    IP database, which is read-only at run time; and the stored rows. *)
Variable createConversationErr : Conversation -> option error.
Variable createMessageErr :
  ConversationMessage -> list ConversationReference -> option error.
Variable setGeoErr : string -> string -> option error.
Variable ipdb : string -> IPAddress + error.
Variable listRows :
  ConversationListReq -> list ConversationListItem * Z + error.
Variable detailOf : string -> ConversationDetailResp + error.
Variable messagesOf : string -> list ConversationMessage + error.
Variable referencesOf : string -> list ConversationReference + error.
Variable removeOldDataErr : Z -> option error.

(** *** Collaborators *)

(** Modelled from the spec: [pg.ConversationRepository.CreateConversation]
    is missing; it persists the conversation record or fails. *)
Definition repo_CreateConversation (conversation : Conversation)
  : M (option error) :=
  let* _ := issue (RepoCreateConversation conversation) in
  match createConversationErr conversation with
  | Some err => ret (Some err)
  | None =>
      let* w := get in
      let* _ := set_conversations (w_conversations w ++ [conversation]) in
      ret None
  end.

(** Modelled from the spec: [pg.ConversationRepository.CreateConversationMessage]
    is missing; it writes the message together with its references. *)
Definition repo_CreateConversationMessage (message : ConversationMessage)
           (references : list ConversationReference) : M (option error) :=
  let* _ := issue (RepoCreateConversationMessage message references) in
  ret (createMessageErr message references).

(** Modelled from the spec: [ipdb.IPAddressRepo.GetIPAddress] is missing;
    [lookup(ip)] gives a location or reports that there is none. *)
Definition ipRepo_GetIPAddress (ip : string) : M (IPAddress + error) :=
  let* _ := issue (IPGetIPAddress ip) in
  ret (ipdb ip).

(** Modelled from the spec: [cache.GeoRepo.SetGeo] is missing;
    [set(kbID, value)] stores the value under the knowledge base or
    fails. *)
Definition geoCacheRepo_SetGeo (kbID location : string) : M (option error) :=
  let* _ := issue (GeoSetGeo kbID location) in
  match setGeoErr kbID location with
  | Some err => ret (Some err)
  | None =>
      let* w := get in
      let* _ := set_geo (<[kbID := location]> (w_geo w)) in
      ret None
  end.

(** Modelled from the spec: the reads of [pg.ConversationRepository] are
    missing; each gives the stored rows or fails. *)
Definition repo_GetConversationList (request : ConversationListReq)
  : M (list ConversationListItem * Z + error) :=
  let* _ := issue (RepoGetConversationList request) in
  ret (listRows request).

Definition repo_GetConversationDetail (conversationID : string)
  : M (ConversationDetailResp + error) :=
  let* _ := issue (RepoGetConversationDetail conversationID) in
  ret (detailOf conversationID).

Definition repo_GetConversationMessagesByID (conversationID : string)
  : M (list ConversationMessage + error) :=
  let* _ := issue (RepoGetConversationMessagesByID conversationID) in
  ret (messagesOf conversationID).

Definition repo_GetConversationReferences (conversationID : string)
  : M (list ConversationReference + error) :=
  let* _ := issue (RepoGetConversationReferences conversationID) in
  ret (referencesOf conversationID).

Definition ErrNonceNotFound : error := mkError "nonce not found".
Definition ErrNonceInvalid : error := mkError "nonce invalid".
Definition ErrNonceAlreadyUsed : error := mkError "nonce already used".

(** Modelled from the spec: [pg.ConversationRepository.ValidateConversationNonce]
    is missing; [validate(conversationID, nonce)] answers Ok, Invalid,
    AlreadyUsed or NotFound and is check-and-consume: a successful
    validation marks the nonce unusable for future calls. *)
Definition repo_ValidateConversationNonce (conversationID nonce : string)
  : M (option error) :=
  let* _ := issue (RepoValidateConversationNonce conversationID nonce) in
  let* w := get in
  match (w_nonces w !! conversationID : option (string * bool)) with
  | None => ret (Some ErrNonceNotFound)
  | Some (stored, used) =>
      if negb (String.eqb stored nonce) then ret (Some ErrNonceInvalid)
      else if used then ret (Some ErrNonceAlreadyUsed)
      else
        let* _ := set_nonces (<[conversationID := (stored, true)]> (w_nonces w)) in
        ret None
  end.

(** The retention window: 24 hours, in seconds. *)
Definition retention : Z := 24 * 3600.

(** Modelled from the spec: [pg.StatRepository.RemoveOldData] is missing;
    it deletes all stat records older than the fixed 24-hour threshold,
    relative to wall-clock time; a statement that fails deletes
    nothing. *)
Definition statRepo_RemoveOldData : M (option error) :=
  let* _ := issue StatRemoveOldData in
  let* w := get in
  match removeOldDataErr (w_now w) with
  | Some err => ret (Some err)
  | None =>
      let* _ :=
        set_stats
          (List.filter
             (fun r => negb (st_CreatedAt r <? w_now w - retention)%Z)
             (w_stats w)) in
      ret None
  end.

(** *** [StatCronHandler] *)

(** [NewStatCronHandler] registers [RemoveOldStatData] under the cron
    expression ["1 */1 * * *"]; one tick is one call. *)
Definition RemoveOldStatData : M unit :=
  let* _ := logger Info "remove old stat data start" [] in
  let* err := statRepo_RemoveOldData in
  let* _ :=
    match err with
    | Some e => logger Error "remove old stat data failed" [log_Error e]
    | None => ret tt
    end in
  logger Info "remove old stat data successful" [].

(** *** [ConversationUsecase] *)

Definition CreateChatConversationMessage (kbID : string)
           (conversation : ConversationMessage) : M (option error) :=
  let references :=
    extractReferencesBlock (msg_ID conversation) (msg_AppID conversation)
      (msg_Content conversation) in
  repo_CreateConversationMessage conversation references.

(** The body of the closure given to [lo.Map]: it updates the
    request-scoped [ipAddressMap] and the row it is given. *)
Definition enrich (ipAddressMap : gmap string IPAddress)
           (conversation : ConversationListItem)
  : M (gmap string IPAddress * ConversationListItem) :=
  match ipAddressMap !! li_RemoteIP conversation with
  | None =>
      let* r := ipRepo_GetIPAddress (li_RemoteIP conversation) in
      match r with
      | inr err =>
          let* _ :=
            logger Error "get ip address failed"
              [log_Error err; log_String "ip" (li_RemoteIP conversation)] in
          ret (ipAddressMap, conversation)
      | inl ipAddress =>
          ret (<[li_RemoteIP conversation := ipAddress]> ipAddressMap,
               li_set_IPAddress (Some ipAddress) conversation)
      end
  | Some ipAddress =>
      ret (ipAddressMap, li_set_IPAddress (Some ipAddress) conversation)
  end.

(** [lo.Map] calls the closure on the rows in order. *)
Fixpoint enrich_rows (ipAddressMap : gmap string IPAddress)
         (conversations : list ConversationListItem)
  : M (gmap string IPAddress * list ConversationListItem) :=
  match conversations with
  | [] => ret (ipAddressMap, [])
  | conversation :: rest =>
      let* '(ipAddressMap', conversation') := enrich ipAddressMap conversation in
      let* '(ipAddressMap'', rest') := enrich_rows ipAddressMap' rest in
      ret (ipAddressMap'', conversation' :: rest')
  end.

(** A Go result pair [(value, err)]: [(nil, err)] or [(value, nil)]. *)
Definition GetConversationList (request : ConversationListReq)
  : M (option (PaginatedResult (list ConversationListItem)) * option error) :=
  let* r := repo_GetConversationList request in
  match r with
  | inr err => ret (None, Some err)
  | inl (conversations, total) =>
      let ipAddressMap : gmap string IPAddress := ∅ in
      let* '(_, conversations') := enrich_rows ipAddressMap conversations in
      ret (Some (NewPaginatedResult conversations' total), None)
  end.

Definition GetConversationDetail (conversationID : string)
  : M (option ConversationDetailResp * option error) :=
  let* r := repo_GetConversationDetail conversationID in
  match r with
  | inr err => ret (None, Some err)
  | inl conversation =>
      let* r := ipRepo_GetIPAddress (d_RemoteIP conversation) in
      let* conversation :=
        match r with
        | inr err =>
            let* _ :=
              logger Error "get ip address failed"
                [log_Error err; log_String "ip" (d_RemoteIP conversation)] in
            ret conversation
        | inl ipAddress => ret (d_set_IPAddress (Some ipAddress) conversation)
        end in
      let* r := repo_GetConversationMessagesByID conversationID in
      match r with
      | inr err => ret (None, Some err)
      | inl messages =>
          let conversation := d_set_Messages messages conversation in
          let* r := repo_GetConversationReferences conversationID in
          match r with
          | inr err => ret (None, Some err)
          | inl references =>
              let conversation := d_set_References references conversation in
              ret (Some conversation, None)
          end
      end
  end.

Definition ValidateConversationNonce (conversationID nonce : string)
  : M (option error) :=
  repo_ValidateConversationNonce conversationID nonce.

(** [fmt.Sprintf("%s|%s|%s", ...)] *)
Definition location_of (ipAddress : IPAddress) : string :=
  ip_Country ipAddress +:+ "|" +:+ ip_Province ipAddress +:+ "|"
  +:+ ip_City ipAddress.

Definition CreateConversation (conversation : Conversation) : M (option error) :=
  let* err := repo_CreateConversation conversation in
  match err with
  | Some e => ret (Some e)
  | None =>
      let remoteIP := conv_RemoteIP conversation in
      let* r := ipRepo_GetIPAddress remoteIP in
      let* _ :=
        match r with
        | inr err =>
            logger Warn "get ip address failed"
              [log_Error err; log_String "ip" remoteIP;
               log_String "conversation_id" (conv_ID conversation)]
        | inl ipAddress =>
            let location := location_of ipAddress in
            let* err := geoCacheRepo_SetGeo (conv_KBID conversation) location in
            match err with
            | Some e =>
                logger Warn "set geo cache failed"
                  [log_Error e;
                   log_String "conversation_id" (conv_ID conversation);
                   log_String "ip" remoteIP]
            | None => ret tt
            end
        end in
      ret None
  end.

End Handlers.

(** ** The web application

    [middleware/home.ts] and the markdown view (the component [MarkDown]).
    A JavaScript string is a sequence of code units; the operations used
    below ([startsWith], [includes], [indexOf], [slice], [===]) work unit
    by unit, and every literal is ASCII. *)

(** What the middleware answers: [NextResponse.next()], or
    [NextResponse.redirect] to a path of the same origin with its search
    parameters. *)
Inductive response : Type :=
| Next
| Redirect (pathname : string) (searchParams : list (string * string)).

(** [str.startsWith(p)] *)
Definition startsWith (str p : string) : bool := String.prefix p str.

(** [middleware(request, kb_id, authToken)], as a function of the path
    of the request and of the outcome of [apiClient.serverGetNodeList]:
    the status of its result, or [None] when the call throws (the [catch]
    logs the error and falls through to the last line). *)
Definition middleware (pathname : string) (nodeListResult : option Z)
  : response :=
  match nodeListResult with
  | Some status =>
      if (status =? 401)%Z && negb (startsWith pathname "/auth")
      then Redirect "/auth/login" [("redirect", pathname)]
      else if String.eqb pathname "/"
           then Redirect "/welcome" []
           else Next
  | None => Next
  end.

(** [str.includes(sub)] and [str.indexOf(sub)], which is -1 when [sub]
    does not occur. *)
Definition includes (str sub : string) : bool :=
  match String.index 0 sub str with
  | Some _ => true
  | None => false
  end.

Definition indexOf (str sub : string) : Z :=
  match String.index 0 sub str with
  | Some n => Z.of_nat n
  | None => (-1)%Z
  end.

(** [str.slice(0, idx)] and [str.slice(n)] for indices that are not
    negative. *)
Definition slice_to (str : string) (idx : Z) : string :=
  take_str (Z.to_nat idx) str.
Definition slice_from (str : string) (n : Z) : string :=
  drop_str (Z.to_nat n) str.

Definition close_think : string := String newline "</think>".
Definition blank_close_think : string := String newline close_think.

(** The text [MarkDown] hands to the renderer: when the content nowhere
    holds two newlines directly followed by the closing think tag, the
    first newline that is directly followed by the tag is doubled.  A tag
    with no newline directly before it, such as one at the very start of
    the content, is not looked for. *)
Definition answer (content : string) : string :=
  if negb (includes content blank_close_think)
  then
    let idx := indexOf content close_think in
    if negb (idx =? -1)%Z
    then slice_to content idx +:+ blank_close_think
                  +:+ slice_from content (idx + 9)
    else content
  else content.

(** ** Definitions the statements use *)

(** *** On the matcher *)

(** A pattern without [^] does not look at the byte before a position. *)
Fixpoint bol_free (r : regex) : bool :=
  match r with
  | Bol => false
  | Cat r1 r2 | Alt r1 r2 => bol_free r1 && bol_free r2
  | Star _ r1 | Grp _ r1 => bol_free r1
  | Eps | Chr _ | Cls _ | Eol => true
  end.

Definition shift (d : nat) (m : found) : found :=
  mkFound (f_start m + d) (f_end m + d) (f_text m) (f_caps m).

Definition unshift (m : found) : found :=
  mkFound 0 (f_end m - f_start m) (f_text m) (f_caps m).

(** Matches come in increasing order and do not overlap. *)
Fixpoint chain (lo : nat) (l : list found) : Prop :=
  match l with
  | [] => True
  | m :: l' => (lo <= f_start m)%nat /\ (f_start m <= f_end m)%nat /\ chain (f_end m) l'
  end.

Definition skip_of (cur : cursor) : nat :=
  match cur with
  | Free => 0
  | Within k => k
  end.

Definition fails_here (r : regex) (q : option ascii) (s : string) : bool :=
  match match_here r (mkInput q s) with
  | Some _ => false
  | None => true
  end.

(** No attempt succeeds at any position of [s], its end included. *)
Fixpoint matches_nowhere (r : regex) (q : option ascii) (s : string) : bool :=
  fails_here r q s
  && match s with
     | EmptyString => true
     | String c s' => matches_nowhere r (Some c) s'
     end.

(** No attempt succeeds at any of the first [n] positions of [s]. *)
Fixpoint no_match_before (r : regex) (q : option ascii) (s : string) (n : nat)
  : bool :=
  match n, s with
  | S n', String c s' => fails_here r q s && no_match_before r (Some c) s' n'
  | _, _ => true
  end.

Fixpoint prev_at (q : option ascii) (s : string) (n : nat) : option ascii :=
  match n, s with
  | S n', String c s' => prev_at (Some c) s' n'
  | _, _ => q
  end.

(** A necessary condition on the first byte of a match ([true] whenever
    the pattern can match the empty string). *)
Fixpoint starts (r : regex) (c : ascii) : bool :=
  match r with
  | Chr c' => Ascii.eqb c' c
  | Cls cl => class_mem cl c
  | Cat r1 _ => starts r1 c
  | Alt r1 r2 => starts r1 c || starts r2 c
  | Grp _ r1 => starts r1 c
  | Eps | Star _ _ | Bol | Eol => true
  end.

(** *** On reference extraction *)

Definition nl : string := String newline EmptyString.

(** The two lines [> [1]. [A](http://a)] and [> [2]. [B](http://b)]. *)
Definition two_lines : string :=
  "> [1]. [A](http://a)" +:+ nl +:+ "> [2]. [B](http://b)".

Definition mkRef (conversationID appID name url : string) : ConversationReference :=
  {| ref_ConversationID := conversationID; ref_AppID := appID;
     ref_Name := name; ref_URL := url; ref_Ordinal := EmptyString |}.

Definition twice_text : string :=
  "> [1]. [A](u)" +:+ nl +:+ "foo" +:+ nl +:+ "> [1]. [A](u)".

Definition leak_text : string :=
  twice_text +:+ nl +:+ "> [2]. [B](v) junk".

(** A text with neither a [>] nor a backslash has no match. *)
Fixpoint no_marker (s : string) : bool :=
  match s with
  | EmptyString => true
  | String c s' =>
      negb (Ascii.eqb ">" c) && negb (Ascii.eqb "\" c) && no_marker s'
  end.

(** *** On the handlers *)

(** Further validations, of any conversation and nonce, in the order given. *)
Fixpoint validations (later : list (string * string)) (w : World) : World :=
  match later with
  | [] => w
  | (cid, nonce) :: rest =>
      validations rest (snd (ValidateConversationNonce cid nonce w))
  end.

Definition world0 : World :=
  mkWorld [] [] ∅ [] (<["conv-1" := ("n-42", false)]> ∅) [] 1000000.

Definition is_lookup (ip : string) (c : call) : bool :=
  match c with
  | IPGetIPAddress ip' => String.eqb ip' ip
  | _ => false
  end.

(** The number of lookups of [ip] among the calls. *)
Definition count_lookups (ip : string) (cs : list call) : nat :=
  length (List.filter (is_lookup ip) cs).

Definition has_ip (ip : string) (rows : list ConversationListItem) : bool :=
  existsb (fun r => String.eqb (li_RemoteIP r) ip) rows.

Definition count_ip (ip : string) (rows : list ConversationListItem) : nat :=
  length (List.filter (fun r => String.eqb (li_RemoteIP r) ip) rows).

(** The request-scoped map holds resolved locations only. *)
Definition resolved_only (ipdb : string -> IPAddress + error)
           (m : gmap string IPAddress) : Prop :=
  forall ip a, m !! ip = Some a -> ipdb ip = inl a.

(** What the closure does to a row. *)
Definition enriched (ipdb : string -> IPAddress + error)
           (r : ConversationListItem) : ConversationListItem :=
  match ipdb (li_RemoteIP r) with
  | inl a => li_set_IPAddress (Some a) r
  | inr _ => r
  end.

Definition lookup_failed (e : error) (ip : string) : entry :=
  mkEntry Error "get ip address failed" [("error", error_msg e); ("ip", ip)].

Definition row1 : ConversationListItem :=
  mkConversationListItem "c-1" "10.0.0.1" None 100.
Definition row2 : ConversationListItem :=
  mkConversationListItem "c-2" "10.0.0.1" None 200.
Definition row3 : ConversationListItem :=
  mkConversationListItem "c-3" "not-an-ip" None 300.

Definition request0 : ConversationListReq := mkConversationListReq "kb-1" 1 20.

Definition beijing : IPAddress := mkIPAddress "10.0.0.1" "CN" "Beijing" "Beijing".

(** An IP database that knows one address. *)
Definition ipdb0 (ip : string) : IPAddress + error :=
  if String.eqb ip "10.0.0.1" then inl beijing else inr (mkError "ip not found").

(** An IP database that knows none. *)
Definition ipdb_none (ip : string) : IPAddress + error :=
  inr (mkError "ip not found").

Definition listRows0 (_ : ConversationListReq)
  : list ConversationListItem * Z + error :=
  inl ([row1; row2; row3], 3%Z).

Definition detail0 : ConversationDetailResp :=
  mkConversationDetailResp "c-3" "kb-1" "not-an-ip" None [] [] 300.

Definition message0 : ConversationMessage :=
  mkConversationMessage "m-1" "c-3" "app-1" "assistant" "hello" 301.

(** *** What a successful search has matched *)

(** [Matches r i cs i' cs']: the pattern [r] matches the text between the
    positions [i] and [i'] and takes the captures from [cs] to [cs'],
    with no regard to which of several matches the search prefers. *)
Inductive Matches : regex -> input -> captures -> input -> captures -> Prop :=
| Matches_Eps i cs : Matches Eps i cs i cs
| Matches_Chr c p s cs :
    Matches (Chr c) (mkInput p (String c s)) cs (advance c s) cs
| Matches_Cls cl c p s cs :
    class_mem cl c = true ->
    Matches (Cls cl) (mkInput p (String c s)) cs (advance c s) cs
| Matches_Cat r1 r2 i cs i1 cs1 i2 cs2 :
    Matches r1 i cs i1 cs1 -> Matches r2 i1 cs1 i2 cs2 ->
    Matches (Cat r1 r2) i cs i2 cs2
| Matches_Alt_l r1 r2 i cs i' cs' :
    Matches r1 i cs i' cs' -> Matches (Alt r1 r2) i cs i' cs'
| Matches_Alt_r r1 r2 i cs i' cs' :
    Matches r2 i cs i' cs' -> Matches (Alt r1 r2) i cs i' cs'
| Matches_Star_stop g r i cs : Matches (Star g r) i cs i cs
| Matches_Star_more g r i cs i1 cs1 i2 cs2 :
    Matches r i cs i1 cs1 -> Matches (Star g r) i1 cs1 i2 cs2 ->
    Matches (Star g r) i cs i2 cs2
| Matches_Grp n r i cs i' cs' :
    Matches r i cs i' cs' ->
    Matches (Grp n r) i cs i' ((n, (rest i, rest i')) :: cs')
| Matches_Bol i cs : at_bol i = true -> Matches Bol i cs i cs
| Matches_Eol i cs : at_eol i = true -> Matches Eol i cs i cs.

(** Every byte of [s] satisfies [f]. *)
Fixpoint all_chars (f : ascii -> bool) (s : string) : bool :=
  match s with
  | EmptyString => true
  | String c s' => f c && all_chars f s'
  end.

(** The escaped form of the blockquote sigil. *)
Definition escaped_marker : string := String "\" "u003e".

(** A citation in the text: a sigil, a bracketed number with its dot, and
    a markdown link. *)
Definition citation (mk ws1 ds ws2 name url : string) : string :=
  mk +:+ ws1 +:+ "[" +:+ ds +:+ "]." +:+ ws2 +:+ "[" +:+ name +:+ "]("
     +:+ url +:+ ")".

Definition not_newline (c : ascii) : bool := negb (Ascii.eqb c newline).
Definition not_newline_or_paren (c : ascii) : bool :=
  negb (Ascii.eqb c newline) && negb (Ascii.eqb c ")").

(** *** On what a handler leaves alone *)

(** Two worlds with the same geo cache, stored conversations, nonces,
    stat records and clock. *)
Definition same_stores (w w' : World) : Prop :=
  w_geo w' = w_geo w
  /\ w_conversations w' = w_conversations w
  /\ w_nonces w' = w_nonces w
  /\ w_stats w' = w_stats w
  /\ w_now w' = w_now w.

(** *** On well-formed citation blocks *)

(** The byte before the position reached after [t], from a position whose
    previous byte is [p]. *)
Fixpoint last_of (p : option ascii) (t : string) : option ascii :=
  match t with
  | EmptyString => p
  | String c t' => last_of (Some c) t'
  end.

(** [s] does not begin with a byte of the class. *)
Definition stops (cl : cclass) (s : string) : bool :=
  match s with
  | EmptyString => true
  | String c _ => negb (class_mem cl c)
  end.

(** The citation line of number [d], name [name] and URL [url], followed
    by [t]. *)
Definition cite_line_then (d name url t : string) : string :=
  String ">" (String " " (String "["
    (d +:+ String "]" (String "." (String " " (String "["
       (name +:+ String "]" (String "("
          (url +:+ String ")" t))))))))).

(** Citation lines, one per item, separated by newlines, the last one
    followed by [trail]. *)
Fixpoint render_then (items : list (string * string * string)) (trail : string)
  : string :=
  match items with
  | [] => EmptyString
  | (d, name, url) :: rest =>
      cite_line_then d name url
        match rest with
        | [] => trail
        | _ :: _ => String newline (render_then rest trail)
        end
  end.

Definition not_newline_or_bracket (c : ascii) : bool :=
  negb (Ascii.eqb c newline) && negb (Ascii.eqb c "]").

(** A number of one digit or more, a name on one line without a closing
    bracket, a URL on one line without a closing parenthesis. *)
Definition well_formed (item : string * string * string) : Prop :=
  let '(d, name, url) := item in
  d <> EmptyString
  /\ all_chars is_digit d = true
  /\ all_chars not_newline_or_bracket name = true
  /\ all_chars not_newline_or_paren url = true.

(** The group the block pattern repeats: one citation line with the
    white space after it. *)
Definition block_body : regex :=
  Grp 1
    (Seq [ quoteMarker; Star true (Cls Space);
           Chr "["; Plus true (Cls Digit); Chr "]"; Chr ".";
           Star true (Cls Space);
           Chr "["; Star false (Cls (Dot true)); Chr "]";
           Chr "("; Star false (Cls (Dot true)); Chr ")";
           Star true (Cls Space); Opt true (Chr newline) ]).

(** What follows the match of the whole pattern. *)
Definition at_end (i : input) (cs : captures) : option (string * captures) :=
  Some (rest i, cs).

(** A citation line without its sigil. *)
Definition line_tail (d name url : string) : string :=
  String " " (String "["
    (d +:+ String "]" (String "." (String " " (String "["
       (name +:+ String "]" (String "("
          (url +:+ String ")" EmptyString)))))))).

(** The reference a well-formed item stands for. *)
Definition item_ref (cid aid : string) (item : string * string * string)
  : ConversationReference :=
  mkRef cid aid (snd (fst item)) (snd item).

(** *** On a block in the middle of a text *)

(** The end of one round of the block pattern: the white space after the
    closing parenthesis and an optional newline. *)
Definition line_end : regex :=
  Seq [Star true (Cls Space); Opt true (Chr newline)].

(** What follows the repetition in the block pattern: [$], and the end
    of the match. *)
Definition block_end (i : input) (cs : captures) : option (string * captures) :=
  exec (Cat Eol Eps) i cs at_end.

(** A match [(start, end)] that starts before offset [n] ends at or
    before it. *)
Definition ends_by (n : nat) (span : nat * nat) : Prop :=
  (fst span < n)%nat -> (snd span <= n)%nat.

(** ** Properties of the matcher *)

(** The search calls its continuation on what remains of the text it was
    given, so it depends on the continuation at shorter texts only. *)
Lemma star_loop_ext {A : Type} (g : bool)
      (body : input -> captures -> (input -> captures -> option A) -> option A) :
  (forall i cs k k',
      (forall i' cs',
          (String.length (rest i') <= String.length (rest i))%nat ->
          k i' cs' = k' i' cs') ->
      body i cs k = body i cs k') ->
  forall n i cs k k',
    (forall i' cs',
        (String.length (rest i') <= String.length (rest i))%nat ->
        k i' cs' = k' i' cs') ->
    star_loop g body k n i cs = star_loop g body k' n i cs.
Proof.
  intros Hbody. induction n as [|n IH]; intros i cs k k' Hk; cbn [star_loop].
  - apply Hk. lia.
  - rewrite (Hk i cs) by lia.
    rewrite (Hbody i cs _
               (fun i' cs' =>
                  if (String.length (rest i') <? String.length (rest i))%nat
                  then star_loop g body k' n i' cs' else None));
      [reflexivity|].
    intros i' cs' Hle.
    destruct (Nat.ltb_spec (String.length (rest i')) (String.length (rest i)));
      [|reflexivity].
    apply IH. intros i'' cs'' Hle'. apply Hk. lia.
Qed.

Lemma exec_ext {A : Type} (r : regex) :
  forall i cs (k k' : input -> captures -> option A),
    (forall i' cs',
        (String.length (rest i') <= String.length (rest i))%nat ->
        k i' cs' = k' i' cs') ->
    exec r i cs k = exec r i cs k'.
Proof.
  induction r as [| c | cl | r1 IH1 r2 IH2 | r1 IH1 r2 IH2 | g r1 IH1
                  | n r1 IH1 | |]; intros i cs k k' Hk; cbn [exec].
  - apply Hk. lia.
  - destruct (rest i) as [|c' s'] eqn:E; [reflexivity|].
    destruct (Ascii.eqb c c'); [|reflexivity]. apply Hk. cbn. lia.
  - destruct (rest i) as [|c' s'] eqn:E; [reflexivity|].
    destruct (class_mem cl c'); [|reflexivity]. apply Hk. cbn. lia.
  - apply IH1. intros i' cs' Hle. apply IH2.
    intros i'' cs'' Hle'. apply Hk. lia.
  - rewrite (IH1 i cs k k' Hk), (IH2 i cs k k' Hk). reflexivity.
  - apply star_loop_ext; [exact IH1|exact Hk].
  - apply IH1. intros i' cs' Hle. now apply Hk.
  - destruct (at_bol i); [|reflexivity]. apply Hk. lia.
  - destruct (at_eol i); [|reflexivity]. apply Hk. lia.
Qed.

(** The counter of a repetition is never exhausted: any value above the
    length of the remaining text gives the same search. *)
Lemma star_loop_fuel {A : Type} (g : bool) (r : regex)
      (k : input -> captures -> option A) :
  forall n n' i cs,
    (String.length (rest i) < n)%nat ->
    (String.length (rest i) < n')%nat ->
    star_loop g (exec r) k n i cs = star_loop g (exec r) k n' i cs.
Proof.
  induction n as [|n IH]; intros n' i cs Hn Hn'; [lia|].
  destruct n' as [|n']; [lia|]. cbn [star_loop].
  rewrite (exec_ext r i cs _
             (fun i' cs' =>
                if (String.length (rest i') <? String.length (rest i))%nat
                then star_loop g (exec r) k n' i' cs' else None));
    [reflexivity|].
  intros i' cs' _.
  destruct (Nat.ltb_spec (String.length (rest i')) (String.length (rest i)));
    [|reflexivity].
  apply IH; lia.
Qed.

Lemma exec_prev_irrel {A : Type} (r : regex) :
  bol_free r = true ->
  forall (p p' : option ascii) (s : string) (cs : captures)
         (k k' : input -> captures -> option A),
    (forall q q' s0 cs0, k (mkInput q s0) cs0 = k' (mkInput q' s0) cs0) ->
    exec r (mkInput p s) cs k = exec r (mkInput p' s) cs k'.
Proof.
  induction r as [| c | cl | r1 IH1 r2 IH2 | r1 IH1 r2 IH2 | g r1 IH1
                  | n r1 IH1 | |]; intros Hb p p' s cs k k' Hk;
    cbn [exec bol_free rest] in *.
  - apply Hk.
  - destruct s as [|c' s']; [reflexivity|].
    destruct (Ascii.eqb c c'); [apply Hk|reflexivity].
  - destruct s as [|c' s']; [reflexivity|].
    destruct (class_mem cl c'); [apply Hk|reflexivity].
  - apply andb_prop in Hb as [Hb1 Hb2].
    apply IH1; [exact Hb1|]. intros q q' s0 cs0. now apply IH2.
  - apply andb_prop in Hb as [Hb1 Hb2].
    rewrite (IH1 Hb1 p p' s cs k k' Hk), (IH2 Hb2 p p' s cs k k' Hk).
    reflexivity.
  - generalize (S (String.length s)). intros n.
    revert p p' s cs. induction n as [|n IHn]; intros p p' s cs;
      cbn [star_loop rest].
    + apply Hk.
    + rewrite (Hk p p' s cs).
      erewrite (IH1 Hb p p' s cs); [reflexivity|].
      intros q q' s0 cs0. cbn [rest].
      destruct (String.length s0 <? String.length s)%nat; [|reflexivity].
      apply IHn.
  - apply IH1; [exact Hb|]. intros q q' s0 cs0. cbn [rest]. apply Hk.
  - discriminate.
  - unfold at_eol; cbn [rest].
    destruct s as [|c s']; [apply Hk|].
    destruct (Ascii.eqb c newline); [apply Hk|reflexivity].
Qed.

Lemma match_here_prev_irrel (r : regex) (p p' : option ascii) (s : string) :
  bol_free r = true ->
  match_here r (mkInput p s) = match_here r (mkInput p' s).
Proof.
  intros Hb. unfold match_here. now apply exec_prev_irrel.
Qed.

(** *** The scan *)

Lemma scan_shift (r : regex) (d : nat) (s : string) :
  forall p off cur,
    scan r p s (off + d) cur = map (shift d) (scan r p s off cur).
Proof.
  induction s as [|c s IH]; intros p off cur.
  - destruct cur as [|[|k]]; cbn [scan]; try reflexivity;
      destruct (match_here r _) as [[s' cs]|]; try reflexivity;
      destruct (_ - _)%nat; reflexivity.
  - assert (Hn : forall q cur',
               scan r q s (S (off + d)) cur'
               = map (shift d) (scan r q s (S off) cur')).
    { intros q cur'. apply (IH q (S off) cur'). }
    destruct cur as [|[|k]]; cbn [scan]; try apply Hn;
      destruct (match_here r _) as [[s' cs]|]; try apply Hn;
      destruct (_ - _)%nat as [|n]; cbn [map]; rewrite ?Hn;
      try reflexivity; unfold shift; cbn; f_equal; f_equal; lia.
Qed.

Lemma scan_prev_irrel (r : regex) (s : string) :
  bol_free r = true ->
  forall p p' off cur, scan r p s off cur = scan r p' s off cur.
Proof.
  intros Hb p p' off cur.
  destruct s as [|c s];
    destruct cur as [|[|k]]; cbn [scan]; try reflexivity;
    rewrite (match_here_prev_irrel r p p' _ Hb); reflexivity.
Qed.

Lemma chain_weaken (l : list found) :
  forall lo lo', (lo' <= lo)%nat -> chain lo l -> chain lo' l.
Proof.
  destruct l as [|m l]; intros lo lo' Hle H; [exact I|].
  cbn in *. destruct H as (H1 & H2 & H3). repeat split; try lia. exact H3.
Qed.

Lemma scan_chain (r : regex) (s : string) :
  forall p off cur, chain (off + skip_of cur) (scan r p s off cur).
Proof.
  induction s as [|c s IH]; intros p off cur.
  - destruct cur as [|[|k]]; cbn [scan]; try exact I;
      destruct (match_here r _) as [[s' cs]|]; try exact I;
      destruct (_ - _)%nat; cbn; try exact I; repeat split; lia.
  - assert (Hn : forall q cur' lo,
               (lo <= S off + skip_of cur')%nat ->
               chain lo (scan r q s (S off) cur')).
    { intros q cur' lo Hlo. eapply chain_weaken; [exact Hlo|apply IH]. }
    destruct cur as [|[|k]]; cbn [scan]; try (apply Hn; cbn; lia);
      destruct (match_here r _) as [[s' cs]|]; try (apply Hn; cbn; lia);
      destruct (_ - _)%nat as [|n]; try (apply Hn; cbn; lia);
      cbn [chain f_start f_end skip_of]; repeat split; try lia;
      apply Hn; cbn; lia.
Qed.

Lemma chain_lower_bound (l : list found) :
  forall lo m, chain lo l -> In m l -> (lo <= f_start m)%nat.
Proof.
  induction l as [|m0 l IH]; intros lo m H Hin; [destruct Hin|].
  cbn in H. destruct H as (H1 & H2 & H3).
  destruct Hin as [->|Hin]; [exact H1|].
  specialize (IH _ _ H3 Hin). lia.
Qed.

Lemma chain_before_last (ms : list found) :
  forall lo m, chain lo (ms ++ [m]) ->
               Forall (fun m' => (f_end m' <= f_start m)%nat) ms.
Proof.
  induction ms as [|m0 ms IH]; intros lo m H; [constructor|].
  cbn in H. destruct H as (H1 & H2 & H3).
  constructor; [|eapply IH; exact H3].
  eapply chain_lower_bound; [exact H3|].
  apply in_or_app. right. now left.
Qed.

(** Every match carries the subject from its start on. *)
Lemma scan_text (r : regex) (s : string) :
  forall p off cur m,
    In m (scan r p s off cur) ->
    (off <= f_start m)%nat /\ f_text m = drop_str (f_start m - off) s.
Proof.
  induction s as [|c s IH]; intros p off cur m Hin.
  - destruct cur as [|[|k]]; cbn [scan] in Hin; try (now destruct Hin);
      destruct (match_here r _) as [[s' cs]|]; try (now destruct Hin);
      destruct (_ - _)%nat; cbn in Hin; try (now destruct Hin);
      destruct Hin as [<-|[]]; cbn; rewrite Nat.sub_diag; split; (lia || reflexivity).
  - assert (Hn : forall q cur',
               In m (scan r q s (S off) cur') ->
               (off <= f_start m)%nat
               /\ f_text m = drop_str (f_start m - off) (String c s)).
    { intros q cur' H. destruct (IH _ _ _ _ H) as [H1 H2]. split; [lia|].
      replace (f_start m - off)%nat with (S (f_start m - S off)) by lia.
      exact H2. }
    destruct cur as [|[|k]]; cbn [scan] in Hin; try (eapply Hn; exact Hin);
      destruct (match_here r _) as [[s' cs]|]; try (eapply Hn; exact Hin);
      destruct (_ - _)%nat; try (eapply Hn; exact Hin);
      (destruct Hin as [<-|Hin]; [|eapply Hn; exact Hin]);
      cbn; rewrite Nat.sub_diag; split; (lia || reflexivity).
Qed.

(** The last match is also the one match found in the text that begins
    where it starts: nothing before it has any influence. *)
Lemma scan_last_alone (r : regex) (s : string) :
  bol_free r = true ->
  forall p off cur ms m,
    scan r p s off cur = ms ++ [m] ->
    scan r None (drop_str (f_start m - off) s) 0 Free = [unshift m].
Proof.
  intros Hb. induction s as [|c s IH]; intros p off cur ms m H.
  - destruct cur as [|[|k]]; cbn [scan] in H;
      try (now destruct ms; discriminate H);
      destruct (match_here r _) as [[s' cs]|] eqn:E;
      try (now destruct ms; discriminate H);
      (destruct (String.length _ - String.length _)%nat eqn:El; [|cbn in El; discriminate El]);
      try (now destruct ms; discriminate H).
    destruct ms as [|m0 ms]; [|now destruct ms; discriminate H].
    injection H as <-. cbn [f_start]. rewrite Nat.sub_diag. cbn [drop_str scan].
    rewrite (match_here_prev_irrel r None p _ Hb), E, El.
    unfold unshift. cbn. now rewrite Nat.sub_diag.
  - assert (Hn : forall q cur' ms',
               scan r q s (S off) cur' = ms' ++ [m] ->
               scan r None (drop_str (f_start m - off) (String c s)) 0 Free
               = [unshift m]).
    { intros q cur' ms' H'.
      assert (Hin : In m (scan r q s (S off) cur')).
      { rewrite H'. apply in_or_app. right. now left. }
      destruct (scan_text _ _ _ _ _ _ Hin) as [Hle _].
      replace (f_start m - off)%nat with (S (f_start m - S off)) by lia.
      cbn [drop_str]. eapply IH. exact H'. }
    assert (Hz : forall q cur',
               scan r q s (S off) cur' = [] -> scan r q s 1 cur' = []).
    { intros q cur' H'. change (S off) with (1 + off)%nat in H'.
      rewrite scan_shift in H'. now apply map_eq_nil in H'. }
    destruct cur as [|[|k]]; cbn [scan] in H; try (eapply Hn; exact H);
      destruct (match_here r _) as [[s' cs]|] eqn:E; try (eapply Hn; exact H);
      destruct (String.length _ - String.length _)%nat as [|n] eqn:El; try (eapply Hn; exact H);
      (destruct ms as [|m0 ms];
       [ injection H as Hm Hnil; subst m; cbn [f_start]; rewrite Nat.sub_diag;
         cbn [drop_str scan];
         rewrite (match_here_prev_irrel r None p _ Hb), E, El, (Hz _ _ Hnil);
         unfold unshift; cbn [f_start f_end f_text f_caps];
         f_equal; f_equal; lia
       | injection H as Hm H; eapply Hn; exact H ]).
Qed.

(** *** Texts the pattern does not match *)

Lemma scan_matches_nowhere (r : regex) (s : string) :
  forall q off cur, matches_nowhere r q s = true -> scan r q s off cur = [].
Proof.
  induction s as [|c s IH]; intros q off cur H; cbn [matches_nowhere] in H;
    apply andb_prop in H as [H1 H2]; unfold fails_here in H1;
    destruct cur as [|[|k]]; cbn [scan]; try reflexivity;
    try (now apply IH);
    destruct (match_here r _); try discriminate H1; try reflexivity;
    now apply IH.
Qed.

Lemma scan_no_match_before (r : regex) (n : nat) :
  forall s q off,
    (n <= String.length s)%nat ->
    no_match_before r q s n = true ->
    scan r q s off Free = scan r (prev_at q s n) (drop_str n s) (off + n) Free.
Proof.
  induction n as [|n IH]; intros s q off Hlen H.
  - destruct s; cbn [prev_at drop_str]; rewrite Nat.add_0_r; reflexivity.
  - destruct s as [|c s]; [cbn in Hlen; lia|].
    cbn [no_match_before] in H. apply andb_prop in H as [H1 H2].
    unfold fails_here in H1. cbn [scan prev_at drop_str].
    destruct (match_here r _); [discriminate H1|].
    rewrite (IH s (Some c) (S off)); [|cbn in Hlen; lia|exact H2].
    f_equal. lia.
Qed.

Lemma exec_starts {A : Type} (r : regex) (c : ascii) :
  starts r c = false ->
  forall q s cs (k : input -> captures -> option A),
    exec r (mkInput q (String c s)) cs k = None.
Proof.
  induction r as [| c' | cl | r1 IH1 r2 IH2 | r1 IH1 r2 IH2 | g r1 IH1
                  | n r1 IH1 | |]; intros Hs q s cs k;
    cbn [exec starts rest] in *; try discriminate Hs.
  - now rewrite Hs.
  - now rewrite Hs.
  - now apply IH1.
  - apply orb_false_elim in Hs as [H1 H2]. now rewrite IH1, IH2.
  - now apply IH1.
Qed.

(** ** Reference extraction: properties *)

Lemma drop_str_app (p s : string) : drop_str (String.length p) (p +:+ s) = s.
Proof. induction p as [|c p IH]; [reflexivity|exact IH]. Qed.

Lemma length_app_str (p s : string) :
  String.length (p +:+ s) = (String.length p + String.length s)%nat.
Proof.
  induction p as [|c p IH]; [reflexivity|].
  simpl. f_equal. exact IH.
Qed.

Lemma reBlock_bol_free : bol_free reBlock = true.
Proof. reflexivity. Qed.

(** What [extractReferencesBlock] returns, in terms of the matches. *)
Lemma extract_none (cid aid text : string) :
  allMatches reBlock text = [] -> extractReferencesBlock cid aid text = [].
Proof.
  intros H. unfold extractReferencesBlock, FindAllStringIndex. now rewrite H.
Qed.

Lemma extract_last (cid aid text : string) (ms : list found) (m : found) :
  allMatches reBlock text = ms ++ [m] ->
  extractReferencesBlock cid aid text
  = references_of_block cid aid (drop_str (f_start m) text).
Proof.
  intros H. unfold extractReferencesBlock, FindAllStringIndex.
  rewrite H, map_app. cbn [map]. rewrite last_snoc. cbn [fst].
  destruct (Z.eqb_spec (Z.of_nat (f_start m)) (-1)) as [E|_]; [lia|].
  now rewrite Nat2Z.id.
Qed.

Lemma two_lines_scan :
  FindAllStringIndex reBlock two_lines = [(0, 41)]%nat.
Proof. vm_compute. reflexivity. Qed.

Lemma two_lines_refs (cid aid : string) :
  references_of_block cid aid two_lines
  = [mkRef cid aid "A" "http://a"; mkRef cid aid "B" "http://b"].
Proof. vm_compute. reflexivity. Qed.

(** A text made of [p] and a tail [s], when no match starts inside
    [p]: the matches are those of [s] alone, moved by the length of [p]. *)
Lemma allMatches_after_prefix (r : regex) (p s : string) :
  bol_free r = true ->
  no_match_before r None (p +:+ s) (String.length p) = true ->
  allMatches r (p +:+ s) = map (shift (String.length p)) (allMatches r s).
Proof.
  intros Hb H. unfold allMatches.
  rewrite (scan_no_match_before r (String.length p) _ None 0);
    [|rewrite length_app_str; lia|exact H].
  rewrite drop_str_app.
  rewrite (scan_prev_irrel r s Hb _ None).
  apply scan_shift.
Qed.

(** A text made of a prefix in which no match of the block pattern
    starts, followed by the two lines. *)
Lemma extract_two_lines_clean_prefix (cid aid p : string) :
  no_match_before reBlock None (p +:+ two_lines) (String.length p) = true ->
  extractReferencesBlock cid aid (p +:+ two_lines)
  = [mkRef cid aid "A" "http://a"; mkRef cid aid "B" "http://b"].
Proof.
  intros H.
  pose proof (allMatches_after_prefix reBlock p two_lines reBlock_bol_free H) as Hall.
  assert (Hone : exists m, allMatches reBlock two_lines = [m] /\ f_start m = 0%nat).
  { eexists. split; [vm_compute; reflexivity|reflexivity]. }
  destruct Hone as (m & Hm & Hs). rewrite Hm in Hall. cbn [map] in Hall.
  rewrite (extract_last cid aid _ [] _ Hall).
  unfold shift. cbn [f_start]. rewrite Hs. cbn [Nat.add].
  rewrite drop_str_app. apply two_lines_refs.
Qed.

(** Claim C1, as amended.  For every text that ends in the two lines
    [> [1]. [A](http://a)] and [> [2]. [B](http://b)] and in which the
    last match of the block pattern starts at the first of them, whatever
    comes before and whatever is matched there, [extractReferencesBlock]
    returns exactly two references, in source order, named "A" and "B"
    with the URLs "http://a" and "http://b", owned by the conversation
    and the application given; the citation numbers are not stored (the
    ordinal of both is empty). *)
Theorem extract_two_lines (cid aid p : string) (e : nat) :
  last (FindAllStringIndex reBlock (p +:+ two_lines)) = Some (String.length p, e) ->
  extractReferencesBlock cid aid (p +:+ two_lines)
  = [mkRef cid aid "A" "http://a"; mkRef cid aid "B" "http://b"].
Proof.
  intros H. unfold extractReferencesBlock. cbv zeta. rewrite H. cbn [fst].
  destruct (Z.eqb_spec (Z.of_nat (String.length p)) (-1)) as [E|_]; [lia|].
  rewrite Nat2Z.id, drop_str_app. apply two_lines_refs.
Qed.

(** The prefix may hold a block of its own: here an earlier citation line
    is matched, a line of prose follows it, and the two lines are the
    last match. *)
Lemma extract_two_lines_witness :
  FindAllStringIndex reBlock
    (("> [9]. [Z](z)" +:+ nl +:+ "foo" +:+ nl) +:+ two_lines)
  = [(0, 13); (18, 59)]%nat
  /\ extractReferencesBlock "c1" "app"
       (("> [9]. [Z](z)" +:+ nl +:+ "foo" +:+ nl) +:+ two_lines)
     = [mkRef "c1" "app" "A" "http://a"; mkRef "c1" "app" "B" "http://b"].
Proof.
  split; [vm_compute; reflexivity|].
  apply (extract_two_lines "c1" "app" ("> [9]. [Z](z)" +:+ nl +:+ "foo" +:+ nl) 59).
  vm_compute. reflexivity.
Defined.

(** Claim C1 as stated fails twice over: a text that ends in the two
    lines and has a third citation line before them gives three
    references, and on the two lines alone the ordinals are empty, not
    "1" and "2". *)
Lemma extract_two_lines_counterexample :
  map (fun r => (ref_Ordinal r, ref_Name r, ref_URL r))
      (extractReferencesBlock "c1" "app"
         ("> [0]. [Z](http://z)" +:+ nl +:+ two_lines))
  = [("", "Z", "http://z"); ("", "A", "http://a"); ("", "B", "http://b")]
  /\ map ref_Ordinal (extractReferencesBlock "c1" "app" two_lines) = [""; ""].
Proof. split; vm_compute; reflexivity. Qed.

Lemma drop_str_all (s : string) : drop_str (String.length s) s = EmptyString.
Proof. induction s as [|c s IH]; [reflexivity|exact IH]. Qed.

Lemma append_empty_r (s : string) : s +:+ EmptyString = s.
Proof.
  induction s as [|c s IH]; [reflexivity|].
  change (String c (s +:+ EmptyString) = String c s). now rewrite IH.
Qed.

Lemma take_drop_str (n : nat) (s : string) :
  s = take_str n s +:+ drop_str n s.
Proof.
  revert s. induction n as [|n IH]; intros s; [reflexivity|].
  destruct s as [|c s]; [reflexivity|]. cbn [take_str drop_str].
  change (String c s = String c (take_str n s +:+ drop_str n s)).
  f_equal. apply IH.
Qed.

Lemma drop_drop_str (n k : nat) (s : string) :
  drop_str k (drop_str n s) = drop_str (n + k) s.
Proof.
  revert s. induction n as [|n IH]; intros s; [reflexivity|].
  destruct s as [|c s]; [now destruct k|]. apply IH.
Qed.

(** Claim C2, as amended.  When the block pattern matches in the text,
    with [m] the last match: every earlier match ends at or before the
    start of [m]; the result is read from the text that begins at the
    start of [m] and runs to the end of the text, which is the text of
    [m] followed by whatever comes after [m]; the result is the same as
    for that tail alone, so nothing before the start of [m], an earlier
    block included, contributes to it; and when [m] reaches the end of
    the text the result is read from the text of [m] alone. *)
Theorem extract_last_block (cid aid text : string) (ms : list found) (m : found) :
  allMatches reBlock text = ms ++ [m] ->
  Forall (fun m' => (f_end m' <= f_start m)%nat) ms
  /\ extractReferencesBlock cid aid text
     = references_of_block cid aid (drop_str (f_start m) text)
  /\ drop_str (f_start m) text = group_text m 0 +:+ drop_str (f_end m) text
  /\ extractReferencesBlock cid aid text
     = extractReferencesBlock cid aid (drop_str (f_start m) text)
  /\ (f_end m = String.length text ->
      extractReferencesBlock cid aid text
      = references_of_block cid aid (group_text m 0)).
Proof.
  intros H.
  assert (Hin : In m (allMatches reBlock text)).
  { rewrite H. apply in_or_app. right. now left. }
  pose proof (scan_chain reBlock text None 0 Free) as Hc.
  fold (allMatches reBlock text) in Hc. rewrite H in Hc.
  destruct (scan_text _ _ _ _ _ _ Hin) as [_ Htext].
  rewrite Nat.sub_0_r in Htext.
  assert (Hse : (f_start m <= f_end m)%nat).
  { clear -Hc. revert Hc. generalize (0 + skip_of Free)%nat.
    induction ms as [|m0 ms IH]; intros lo Hc; cbn in Hc.
    - lia.
    - destruct Hc as (_ & _ & Hc). eapply IH. exact Hc. }
  split; [eapply chain_before_last; exact Hc|].
  split; [eapply extract_last; exact H|].
  assert (Hsplit : drop_str (f_start m) text
                   = group_text m 0 +:+ drop_str (f_end m) text).
  { unfold group_text. rewrite Htext.
    replace (drop_str (f_end m) text)
      with (drop_str (f_end m - f_start m) (drop_str (f_start m) text)).
    - apply take_drop_str.
    - rewrite drop_drop_str. f_equal. lia. }
  split; [exact Hsplit|].
  split.
  - rewrite (extract_last cid aid text ms m H).
    pose proof (scan_last_alone reBlock text reBlock_bol_free None 0 Free ms m H)
      as Hal.
    rewrite Nat.sub_0_r in Hal.
    symmetry.
    rewrite (extract_last cid aid (drop_str (f_start m) text) [] (unshift m) Hal).
    reflexivity.
  - intros Hend. rewrite (extract_last cid aid text ms m H), Hsplit, Hend.
    now rewrite drop_str_all, append_empty_r.
Qed.

Lemma extract_last_block_witness :
  exists ms m,
    allMatches reBlock twice_text = ms ++ [m]
    /\ length ms = 1%nat
    /\ extractReferencesBlock "c1" "app" twice_text
       = extractReferencesBlock "c1" "app" (drop_str (f_start m) twice_text)
    /\ extractReferencesBlock "c1" "app" twice_text = [mkRef "c1" "app" "A" "u"].
Proof.
  eexists [_], _. split; [vm_compute; reflexivity|].
  split; [reflexivity|].
  split; [|vm_compute; reflexivity].
  eapply (extract_last_block "c1" "app" twice_text [_] _).
  vm_compute. reflexivity.
Defined.

(** Claim C2 as stated fails: below the block [> [1]. [A](u)] occurs
    twice and the last match of the block pattern is its second
    occurrence, the bytes [18, 31); the line after it is no part of that
    match (it goes on after the link), yet its reference is returned. *)
Lemma extract_last_block_counterexample :
  FindAllStringIndex reBlock leak_text = [(0, 13); (18, 31)]%nat
  /\ take_str (31 - 18) (drop_str 18 leak_text) = "> [1]. [A](u)"
  /\ references_of_block "c1" "app" "> [1]. [A](u)" = [mkRef "c1" "app" "A" "u"]
  /\ extractReferencesBlock "c1" "app" leak_text
     = [mkRef "c1" "app" "A" "u"; mkRef "c1" "app" "B" "v"].
Proof. repeat split; vm_compute; reflexivity. Qed.

(** A text in which the block pattern matches at no position has no
    reference. *)
Lemma extract_matches_nowhere (cid aid text : string) :
  matches_nowhere reBlock None text = true ->
  extractReferencesBlock cid aid text = [].
Proof.
  intros H. apply extract_none. unfold allMatches.
  now apply scan_matches_nowhere.
Qed.

(** Claim C3 as stated fails: [$] is compiled under the [m] flag and so
    holds at the end of every line; a block in the middle of the
    document, with text that is no citation after it, is matched and its
    reference is returned. *)
Lemma extract_no_block_counterexample :
  FindAllStringIndex reBlock ("> [1]. [A](http://a)" +:+ nl +:+ "hello")
  = [(0, 20)]%nat
  /\ extractReferencesBlock "c1" "app" ("> [1]. [A](http://a)" +:+ nl +:+ "hello")
     = [mkRef "c1" "app" "A" "http://a"].
Proof. split; vm_compute; reflexivity. Qed.

Lemma no_marker_matches_nowhere (s : string) :
  no_marker s = true -> forall q, matches_nowhere reBlock q s = true.
Proof.
  induction s as [|c s IH]; intros H q; cbn [matches_nowhere].
  - reflexivity.
  - cbn [no_marker] in H.
    apply andb_prop in H as [H H3]. apply andb_prop in H as [H1 H2].
    apply negb_true_iff in H1, H2.
    rewrite (IH H3), andb_true_r. unfold fails_here, match_here.
    rewrite exec_starts; [reflexivity|].
    cbn [reBlock Seq foldr Plus starts quoteMarker Lits orb].
    now rewrite H1, H2.
Qed.

(** The escaped form of the sigil, trailing newlines, a name that holds
    brackets and a URL that holds parentheses: the lazy captures of the
    line pattern end at the first bracket followed by a parenthesis and
    at the first closing parenthesis. *)
Example extract_escaped_marker :
  extractReferencesBlock "c1" "app"
    ("Sources:" +:+ nl +:+ String "\" "u003e [7]. [Doc [v2]](http://d/(x))"
     +:+ nl +:+ nl)
  = [mkRef "c1" "app" "Doc [v2]" "http://d/(x"].
Proof. vm_compute. reflexivity. Qed.

Lemma extract_no_marker (cid aid text : string) :
  no_marker text = true -> extractReferencesBlock cid aid text = [].
Proof.
  intros H. apply extract_none. unfold allMatches.
  apply scan_matches_nowhere. now apply no_marker_matches_nowhere.
Qed.

(** Claim C10.  Every reference [extractReferencesBlock] returns carries
    the conversation identifier and the application identifier it was
    called with, whatever the text. *)
Theorem extract_owner (cid aid text : string) :
  Forall (fun r => ref_ConversationID r = cid /\ ref_AppID r = aid)
         (extractReferencesBlock cid aid text).
Proof.
  unfold extractReferencesBlock.
  destruct (_ =? _)%Z; [constructor|].
  unfold references_of_block.
  generalize (FindAllStringSubmatch reLine 3
                (drop_str
                   (Z.to_nat
                      match last (FindAllStringIndex reBlock text) with
                      | Some m => Z.of_nat m.1
                      | None => (-1)%Z
                      end) text)).
  intros matches.
  assert (Hgen : forall acc,
             Forall (fun r => ref_ConversationID r = cid /\ ref_AppID r = aid) acc ->
             Forall (fun r => ref_ConversationID r = cid /\ ref_AppID r = aid)
               (fold_left
                  (fun refs match_ =>
                     if (length match_ =? 4)%nat
                     then refs ++ [reference_of cid aid match_]
                     else refs) matches acc)).
  { induction matches as [|mt matches IH]; intros acc Hacc; [exact Hacc|].
    cbn [fold_left]. apply IH.
    destruct (length mt =? 4)%nat; [|exact Hacc].
    apply Forall_app. split; [exact Hacc|].
    constructor; [|constructor]. split; reflexivity. }
  apply Hgen. constructor.
Qed.

(** ** The handlers: properties *)

Ltac run :=
  unfold bind, ret, get, issue, logger, set_geo, set_conversations,
    set_nonces, set_stats in *; cbn in *.

(** Claim C4.  [CreateConversation] first persists the record and returns
    the error when that fails, with nothing else done.  When the record is
    persisted the call returns success whatever the enrichment does: a
    failed IP resolution is logged and the cache is left alone; a resolved
    IP has [country|province|city] written to the geo cache under the
    knowledge base of the conversation, and a failure of that write is
    logged. *)
Theorem CreateConversation_best_effort
        (createConversationErr : Conversation -> option error)
        (setGeoErr : string -> string -> option error)
        (ipdb : string -> IPAddress + error)
        (conversation : Conversation) (w : World) :
  let '(r, w') :=
    CreateConversation createConversationErr setGeoErr ipdb conversation w in
  match createConversationErr conversation with
  | Some e =>
      r = Some e
      /\ w_calls w' = w_calls w ++ [RepoCreateConversation conversation]
      /\ w_conversations w' = w_conversations w
      /\ w_geo w' = w_geo w
      /\ w_log w' = w_log w
  | None =>
      r = None
      /\ w_conversations w' = w_conversations w ++ [conversation]
      /\ match ipdb (conv_RemoteIP conversation) with
         | inr err =>
             w_calls w'
             = w_calls w ++ [RepoCreateConversation conversation;
                             IPGetIPAddress (conv_RemoteIP conversation)]
             /\ w_geo w' = w_geo w
             /\ w_log w'
                = w_log w ++ [mkEntry Warn "get ip address failed"
                                [("error", error_msg err);
                                 ("ip", conv_RemoteIP conversation);
                                 ("conversation_id", conv_ID conversation)]]
         | inl a =>
             let location :=
               ip_Country a +:+ "|" +:+ ip_Province a +:+ "|" +:+ ip_City a in
             w_calls w'
             = w_calls w ++ [RepoCreateConversation conversation;
                             IPGetIPAddress (conv_RemoteIP conversation);
                             GeoSetGeo (conv_KBID conversation) location]
             /\ match setGeoErr (conv_KBID conversation) location with
                | None =>
                    w_geo w' = <[conv_KBID conversation := location]> (w_geo w)
                    /\ w_geo w' !! conv_KBID conversation = Some location
                    /\ w_log w' = w_log w
                | Some e =>
                    w_geo w' = w_geo w
                    /\ w_log w'
                       = w_log w ++ [mkEntry Warn "set geo cache failed"
                                       [("error", error_msg e);
                                        ("conversation_id", conv_ID conversation);
                                        ("ip", conv_RemoteIP conversation)]]
                end
         end
  end.
Proof.
  unfold CreateConversation, repo_CreateConversation, ipRepo_GetIPAddress,
    geoCacheRepo_SetGeo, location_of, log_Error, log_String.
  run.
  destruct (createConversationErr conversation) as [e|]; cbn.
  - repeat split; reflexivity.
  - destruct (ipdb (conv_RemoteIP conversation)) as [a|err]; cbn.
    + destruct (setGeoErr _ _) as [e|]; cbn;
        rewrite <- ?app_assoc; cbn; repeat split; try reflexivity.
      apply lookup_insert_eq.
    + rewrite <- ?app_assoc; cbn; repeat split; reflexivity.
Qed.

Lemma validate_keeps_used (cid nonce cid' nonce' : string) (w : World) :
  w_nonces w !! cid = Some (nonce, true) ->
  w_nonces (snd (ValidateConversationNonce cid' nonce' w)) !! cid
  = Some (nonce, true).
Proof.
  intros H. unfold ValidateConversationNonce, repo_ValidateConversationNonce.
  run.
  destruct (w_nonces w !! cid') as [[stored used]|] eqn:E; cbn; [|exact H].
  destruct (String.eqb stored nonce'); cbn; [|exact H].
  destruct used; cbn; [exact H|].
  destruct (decide (cid' = cid)) as [->|Hne].
  - rewrite H in E. discriminate E.
  - rewrite lookup_insert_ne; [exact H|exact Hne].
Qed.

Lemma validations_keep_used (later : list (string * string)) :
  forall (cid nonce : string) (w : World),
    w_nonces w !! cid = Some (nonce, true) ->
    w_nonces (validations later w) !! cid = Some (nonce, true).
Proof.
  induction later as [|[cid' nonce'] later IH]; intros cid nonce w H; cbn.
  - exact H.
  - apply IH. now apply validate_keeps_used.
Qed.

(** Claim C5.  When a validation of a nonce for a conversation succeeds,
    the next validation of the same pair reports already-used, and so
    does every later one, whatever validations come in between: the
    success consumed the nonce. *)
Theorem nonce_single_use (cid nonce : string) (w w1 : World)
        (later : list (string * string)) :
  ValidateConversationNonce cid nonce w = (None, w1) ->
  fst (ValidateConversationNonce cid nonce w1) = Some ErrNonceAlreadyUsed
  /\ fst (ValidateConversationNonce cid nonce (validations later w1))
     = Some ErrNonceAlreadyUsed.
Proof.
  intros H.
  assert (Hused : w_nonces w1 !! cid = Some (nonce, true)).
  { unfold ValidateConversationNonce, repo_ValidateConversationNonce in H.
    run.
    destruct (w_nonces w !! cid) as [[stored used]|] eqn:E; cbn in H;
      [|discriminate H].
    destruct (String.eqb stored nonce) eqn:Eq; cbn in H; [|discriminate H].
    destruct used; cbn in H; [discriminate H|].
    apply String.eqb_eq in Eq. subst stored.
    injection H as <-. cbn. apply lookup_insert_eq. }
  assert (Hgen : forall w',
             w_nonces w' !! cid = Some (nonce, true) ->
             fst (ValidateConversationNonce cid nonce w')
             = Some ErrNonceAlreadyUsed).
  { intros w' H'.
    unfold ValidateConversationNonce, repo_ValidateConversationNonce.
    run. rewrite H'. cbn. rewrite String.eqb_refl. reflexivity. }
  split; apply Hgen; [exact Hused|].
  now apply validations_keep_used.
Qed.

Lemma nonce_single_use_witness :
  ValidateConversationNonce "conv-1" "n-42" world0
  = (None,
     mkWorld [RepoValidateConversationNonce "conv-1" "n-42"] [] ∅ []
       (<["conv-1" := ("n-42", true)]> (<["conv-1" := ("n-42", false)]> ∅))
       [] 1000000)
  /\ fst (ValidateConversationNonce "conv-1" "n-42"
            (validations [("conv-2", "x"); ("conv-1", "n-41")]
               (snd (ValidateConversationNonce "conv-1" "n-42" world0))))
     = Some ErrNonceAlreadyUsed.
Proof.
  split; [reflexivity|].
  eapply (nonce_single_use "conv-1" "n-42" world0 _
            [("conv-2", "x"); ("conv-1", "n-41")]).
  reflexivity.
Defined.

(** *** Listing and detail *)

Lemma count_lookups_app (ip : string) (cs cs' : list call) :
  count_lookups ip (cs ++ cs') = (count_lookups ip cs + count_lookups ip cs')%nat.
Proof.
  unfold count_lookups. now rewrite List.filter_app, length_app.
Qed.

Lemma enrich_step (ipdb : string -> IPAddress + error)
      (m : gmap string IPAddress) (r : ConversationListItem) (w : World) :
  resolved_only ipdb m ->
  exists m1 w1,
    enrich ipdb m r w = ((m1, enriched ipdb r), w1)
    /\ resolved_only ipdb m1
    /\ (forall ip a, m !! ip = Some a -> m1 !! ip = Some a)
    /\ (forall a, ipdb (li_RemoteIP r) = inl a -> m1 !! li_RemoteIP r = Some a)
    /\ (forall ip, ip <> li_RemoteIP r -> m1 !! ip = m !! ip)
    /\ w_calls w1
       = w_calls w ++ match m !! li_RemoteIP r with
                       | Some _ => []
                       | None => [IPGetIPAddress (li_RemoteIP r)]
                       end
    /\ w_log w1
       = w_log w ++ (match ipdb (li_RemoteIP r) with
                     | inl _ => []
                     | inr e => [lookup_failed e (li_RemoteIP r)]
                     end).
Proof.
  intros Hm. unfold enrich, enriched, ipRepo_GetIPAddress, lookup_failed,
               log_Error, log_String.
  destruct (m !! li_RemoteIP r) as [a0|] eqn:E.
  - rewrite (Hm _ _ E). exists m, w. run.
    rewrite !app_nil_r. repeat split; try reflexivity; try assumption;
      try (intros; assumption).
    intros a Ha. injection Ha as <-. exact E.
  - run. destruct (ipdb (li_RemoteIP r)) as [a|e] eqn:Ei; cbn.
    + eexists _, _. split; [reflexivity|]. cbn. rewrite app_nil_r.
      repeat split; try reflexivity.
      * intros ip a' H. destruct (decide (li_RemoteIP r = ip)) as [<-|Hne].
        -- rewrite lookup_insert_eq in H. injection H as <-. exact Ei.
        -- rewrite lookup_insert_ne in H by exact Hne. now apply Hm.
      * intros ip a' H. destruct (decide (li_RemoteIP r = ip)) as [<-|Hne].
        -- rewrite E in H. discriminate H.
        -- now rewrite lookup_insert_ne.
      * intros a' Ha'. injection Ha' as <-. apply lookup_insert_eq.
      * intros ip Hne. now rewrite lookup_insert_ne.
    + eexists _, _. split; [reflexivity|]. cbn.
      repeat split; try reflexivity; try assumption;
        try (intros; assumption).
      intros a Ha. discriminate Ha.
Qed.

Lemma enrich_rows_spec (ipdb : string -> IPAddress + error)
      (rows : list ConversationListItem) :
  forall (m : gmap string IPAddress) (w : World),
    resolved_only ipdb m ->
    exists m' w',
      enrich_rows ipdb m rows w = ((m', map (enriched ipdb) rows), w')
      /\ resolved_only ipdb m'
      /\ (forall ip a, m !! ip = Some a -> m' !! ip = Some a)
      /\ (forall ip a,
             ipdb ip = inl a ->
             count_lookups ip (w_calls w')
             = (count_lookups ip (w_calls w)
                + match m !! ip with
                  | Some _ => 0
                  | None => if has_ip ip rows then 1 else 0
                  end)%nat)
      /\ (forall ip e,
             ipdb ip = inr e ->
             count_lookups ip (w_calls w')
             = (count_lookups ip (w_calls w) + count_ip ip rows)%nat)
      /\ (forall ip a, ipdb ip = inl a -> has_ip ip rows = true ->
                       m' !! ip = Some a)
      /\ w_log w'
         = w_log w
           ++ flat_map (fun r => match ipdb (li_RemoteIP r) with
                                 | inl _ => []
                                 | inr e => [lookup_failed e (li_RemoteIP r)]
                                 end) rows.
Proof.
  induction rows as [|r rows IH]; intros m w Hm.
  - exists m, w. cbn. unfold ret. rewrite app_nil_r.
    repeat split; try reflexivity; try assumption; try (intros; assumption).
    + intros ip a _. destruct (m !! ip); cbn; lia.
    + intros ip e _. unfold count_ip. cbn. lia.
    + intros ip a _ H. discriminate H.
  - destruct (enrich_step ipdb m r w Hm)
      as (m1 & w1 & He & Hm1 & Hmono1 & Hhit1 & Hother1 & Hc1 & Hl1).
    destruct (IH m1 w1 Hm1)
      as (m' & w' & Hr & Hm' & Hmono & Hcnt & Hcnte & Hhit & Hl).
    exists m', w'. cbn [enrich_rows map]. unfold bind at 1. rewrite He.
    unfold bind at 1. rewrite Hr. unfold ret.
    split; [reflexivity|]. split; [exact Hm'|].
    split; [intros ip a H; apply Hmono, Hmono1, H|].
    split; [|split; [|split]].
    + intros ip a Hip. rewrite (Hcnt ip a Hip), Hc1, count_lookups_app.
      unfold has_ip. cbn [existsb].
      destruct (String.eqb_spec (li_RemoteIP r) ip) as [Heq|Hne].
      * subst ip. rewrite (Hhit1 a Hip).
        destruct (m !! li_RemoteIP r); cbn; [lia|].
        unfold count_lookups. cbn. rewrite String.eqb_refl. cbn. lia.
      * rewrite (Hother1 ip) by congruence.
        assert (Hz : count_lookups ip
                       match m !! li_RemoteIP r with
                       | Some _ => []
                       | None => [IPGetIPAddress (li_RemoteIP r)]
                       end = 0%nat).
        { destruct (m !! li_RemoteIP r); [reflexivity|].
          unfold count_lookups. cbn.
          destruct (String.eqb_spec (li_RemoteIP r) ip); [contradiction|].
          reflexivity. }
        rewrite Hz. cbn [orb]. lia.
    + intros ip e Hip. rewrite (Hcnte ip e Hip), Hc1, count_lookups_app.
      unfold count_ip. cbn [List.filter].
      destruct (String.eqb_spec (li_RemoteIP r) ip) as [Heq|Hne].
      * subst ip.
        destruct (m !! li_RemoteIP r) as [a0|] eqn:E.
        -- rewrite (Hm _ _ E) in Hip. discriminate Hip.
        -- unfold count_lookups. cbn. rewrite String.eqb_refl. cbn. lia.
      * assert (Hz : count_lookups ip
                       match m !! li_RemoteIP r with
                       | Some _ => []
                       | None => [IPGetIPAddress (li_RemoteIP r)]
                       end = 0%nat).
        { destruct (m !! li_RemoteIP r); [reflexivity|].
          unfold count_lookups. cbn.
          destruct (String.eqb_spec (li_RemoteIP r) ip); [contradiction|].
          reflexivity. }
        rewrite Hz. lia.
    + intros ip a Hip Hhas. unfold has_ip in Hhas. cbn [existsb] in Hhas.
      destruct (String.eqb_spec (li_RemoteIP r) ip) as [Heq|Hne].
      * subst ip. apply Hmono, Hhit1, Hip.
      * cbn [orb] in Hhas. now apply (Hhit ip a).
    + rewrite Hl, Hl1. cbn [flat_map]. now rewrite <- app_assoc.
Qed.

Lemma GetConversationList_ok (ipdb : string -> IPAddress + error)
      (listRows : ConversationListReq -> list ConversationListItem * Z + error)
      (request : ConversationListReq) (rows : list ConversationListItem)
      (total : Z) (w : World) :
  listRows request = inl (rows, total) ->
  exists w',
    GetConversationList ipdb listRows request w
    = ((Some (NewPaginatedResult (map (enriched ipdb) rows) total), None), w')
    /\ (forall ip a,
           ipdb ip = inl a ->
           count_lookups ip (w_calls w')
           = (count_lookups ip (w_calls w)
              + (if has_ip ip rows then 1 else 0))%nat)
    /\ (forall ip e,
           ipdb ip = inr e ->
           count_lookups ip (w_calls w')
           = (count_lookups ip (w_calls w) + count_ip ip rows)%nat)
    /\ w_log w'
       = w_log w
         ++ flat_map (fun r => match ipdb (li_RemoteIP r) with
                               | inl _ => []
                               | inr e => [lookup_failed e (li_RemoteIP r)]
                               end) rows.
Proof.
  intros Hrows.
  assert (H0 : resolved_only ipdb ∅).
  { intros ip a H. rewrite lookup_empty in H. discriminate H. }
  destruct (enrich_rows_spec ipdb rows ∅
              (mkWorld (w_calls w ++ [RepoGetConversationList request])
                 (w_log w) (w_geo w) (w_conversations w) (w_nonces w)
                 (w_stats w) (w_now w)) H0)
    as (m' & w' & Hr & _ & _ & Hcnt & Hcnte & _ & Hl).
  exists w'. unfold GetConversationList, repo_GetConversationList.
  unfold bind at 1. unfold bind at 1. unfold issue, ret at 1. rewrite Hrows.
  unfold bind at 1. rewrite Hr. unfold ret.
  split; [reflexivity|]. cbn [w_calls w_log] in *.
  assert (Hz : forall ip,
             count_lookups ip (w_calls w ++ [RepoGetConversationList request])
             = count_lookups ip (w_calls w)).
  { intros ip. rewrite count_lookups_app. unfold count_lookups at 2. cbn. lia. }
  split; [|split; [|exact Hl]].
  - intros ip a Hip. rewrite (Hcnt ip a Hip), Hz, lookup_empty. reflexivity.
  - intros ip e Hip. rewrite (Hcnte ip e Hip), Hz. reflexivity.
Qed.

Lemma GetConversationDetail_result (ipdb : string -> IPAddress + error)
      (detailOf : string -> ConversationDetailResp + error)
      (messagesOf : string -> list ConversationMessage + error)
      (referencesOf : string -> list ConversationReference + error)
      (conversationID : string) (w : World) :
  fst (GetConversationDetail ipdb detailOf messagesOf referencesOf conversationID w)
  = match detailOf conversationID with
    | inr err => (None, Some err)
    | inl conversation =>
        match messagesOf conversationID with
        | inr err => (None, Some err)
        | inl messages =>
            match referencesOf conversationID with
            | inr err => (None, Some err)
            | inl references =>
                (Some
                   (d_set_References references
                      (d_set_Messages messages
                         match ipdb (d_RemoteIP conversation) with
                         | inl ipAddress =>
                             d_set_IPAddress (Some ipAddress) conversation
                         | inr _ => conversation
                         end)),
                 None)
            end
        end
    end.
Proof.
  unfold GetConversationDetail, repo_GetConversationDetail, ipRepo_GetIPAddress,
    repo_GetConversationMessagesByID, repo_GetConversationReferences.
  run.
  destruct (detailOf conversationID) as [c|err]; cbn; [|reflexivity].
  destruct (ipdb (d_RemoteIP c)) as [a|err]; cbn;
    destruct (messagesOf conversationID) as [ms|err']; cbn; try reflexivity;
    destruct (referencesOf conversationID) as [rs|err'']; cbn; reflexivity.
Qed.

Lemma GetConversationDetail_log (ipdb : string -> IPAddress + error)
      (detailOf : string -> ConversationDetailResp + error)
      (messagesOf : string -> list ConversationMessage + error)
      (referencesOf : string -> list ConversationReference + error)
      (conversationID : string) (w : World) (d : ConversationDetailResp)
      (e : error) :
  detailOf conversationID = inl d ->
  ipdb (d_RemoteIP d) = inr e ->
  w_log (snd (GetConversationDetail ipdb detailOf messagesOf referencesOf
                conversationID w))
  = w_log w ++ [lookup_failed e (d_RemoteIP d)].
Proof.
  intros Hd He.
  unfold GetConversationDetail, repo_GetConversationDetail, ipRepo_GetIPAddress,
    repo_GetConversationMessagesByID, repo_GetConversationReferences,
    lookup_failed, log_Error, log_String.
  run. rewrite Hd. cbn. rewrite He. cbn.
  destruct (messagesOf conversationID) as [ms|err']; cbn; try reflexivity;
    destruct (referencesOf conversationID) as [rs|err'']; cbn; reflexivity.
Qed.

(** Claim C6.  A row of a listing, or a detail record, whose remote IP
    does not resolve does not make [GetConversationList] or
    [GetConversationDetail] fail: the failure is logged, the record comes
    back as the store gave it, so without a location, and the rest of the
    result is returned: every row keeps its other fields and the total,
    the detail record gets its messages and references. *)
Theorem geo_failure_not_fatal
        (ipdb : string -> IPAddress + error)
        (listRows : ConversationListReq -> list ConversationListItem * Z + error)
        (detailOf : string -> ConversationDetailResp + error)
        (messagesOf : string -> list ConversationMessage + error)
        (referencesOf : string -> list ConversationReference + error)
        (w : World) :
  (forall (request : ConversationListReq) (rows : list ConversationListItem)
          (total : Z) (i : nat) (row : ConversationListItem) (e : error),
      listRows request = inl (rows, total) ->
      rows !! i = Some row ->
      li_IPAddress row = None ->
      ipdb (li_RemoteIP row) = inr e ->
      exists rows' w',
        GetConversationList ipdb listRows request w
        = ((Some (NewPaginatedResult rows' total), None), w')
        /\ rows' !! i = Some row
        /\ Forall2 (fun r r' =>
                      li_ID r' = li_ID r /\ li_RemoteIP r' = li_RemoteIP r
                      /\ li_CreatedAt r' = li_CreatedAt r) rows rows'
        /\ In (lookup_failed e (li_RemoteIP row)) (w_log w'))
  /\ (forall (conversationID : string) (d : ConversationDetailResp) (e : error)
             (messages : list ConversationMessage)
             (references : list ConversationReference),
         detailOf conversationID = inl d ->
         d_IPAddress d = None ->
         ipdb (d_RemoteIP d) = inr e ->
         messagesOf conversationID = inl messages ->
         referencesOf conversationID = inl references ->
         exists d' w',
           GetConversationDetail ipdb detailOf messagesOf referencesOf
             conversationID w = ((Some d', None), w')
           /\ d' = d_set_References references (d_set_Messages messages d)
           /\ d_IPAddress d' = None
           /\ In (lookup_failed e (d_RemoteIP d)) (w_log w')).
Proof.
  split.
  - intros request rows total i row e Hrows Hi Hnone Hip.
    destruct (GetConversationList_ok ipdb listRows request rows total w Hrows)
      as (w' & Hr & _ & _ & Hl).
    exists (map (enriched ipdb) rows), w'. split; [exact Hr|].
    split; [|split].
    + change (map (enriched ipdb) rows) with (enriched ipdb <$> rows).
      rewrite list_lookup_fmap, Hi. cbn. unfold enriched. now rewrite Hip.
    + clear. induction rows as [|r rows IH]; cbn; constructor; [|exact IH].
      unfold enriched. destruct (ipdb (li_RemoteIP r)); cbn; auto.
    + rewrite Hl. apply in_or_app. right. apply in_flat_map.
      exists row. split.
      * apply list_elem_of_In. eapply list_elem_of_lookup_2. exact Hi.
      * rewrite Hip. now left.
  - intros conversationID d e messages references Hd Hdnone Hdip Hms Hrs.
    pose proof (GetConversationDetail_result ipdb detailOf messagesOf
                  referencesOf conversationID w) as Hres.
    pose proof (GetConversationDetail_log ipdb detailOf messagesOf
                  referencesOf conversationID w d e Hd Hdip) as Hlog.
    rewrite Hd, Hms, Hrs, Hdip in Hres.
    destruct (GetConversationDetail ipdb detailOf messagesOf referencesOf
                conversationID w) as [res w'].
    cbn in Hres, Hlog. subst res.
    eexists _, w'. split; [reflexivity|]. split; [reflexivity|].
    split; [exact Hdnone|].
    rewrite Hlog. apply in_or_app. right. now left.
Qed.

(** Claim C7.  [GetConversationDetail] returns an error and no record
    when fetching the conversation, its messages or its references fails;
    when the three succeed it returns the aggregate, with the resolved
    location if the IP resolves and without one if it does not: the geo
    step never fails the call. *)
Theorem GetConversationDetail_required_reads
        (ipdb : string -> IPAddress + error)
        (detailOf : string -> ConversationDetailResp + error)
        (messagesOf : string -> list ConversationMessage + error)
        (referencesOf : string -> list ConversationReference + error)
        (conversationID : string) (w : World) :
  let r := fst (GetConversationDetail ipdb detailOf messagesOf referencesOf
                  conversationID w) in
  match detailOf conversationID, messagesOf conversationID,
        referencesOf conversationID with
  | inl conversation, inl messages, inl references =>
      snd r = None
      /\ exists d,
          fst r = Some d
          /\ d_Messages d = messages /\ d_References d = references
          /\ d_ID d = d_ID conversation /\ d_KBID d = d_KBID conversation
          /\ d_RemoteIP d = d_RemoteIP conversation
          /\ d_CreatedAt d = d_CreatedAt conversation
          /\ d_IPAddress d
             = match ipdb (d_RemoteIP conversation) with
               | inl ipAddress => Some ipAddress
               | inr _ => d_IPAddress conversation
               end
  | inr err, _, _ => r = (None, Some err)
  | inl _, inr err, _ => r = (None, Some err)
  | inl _, inl _, inr err => r = (None, Some err)
  end.
Proof.
  cbv zeta. rewrite GetConversationDetail_result.
  destruct (detailOf conversationID) as [c|err]; [|reflexivity].
  destruct (messagesOf conversationID) as [ms|err]; [|reflexivity].
  destruct (referencesOf conversationID) as [rs|err]; [|reflexivity].
  split; [reflexivity|]. eexists. split; [reflexivity|].
  destruct (ipdb (d_RemoteIP c)); cbn; repeat split; reflexivity.
Qed.

(** Claim C8, as amended.  Within one [GetConversationList] call, a remote
    IP that resolves is looked up at most once, however many rows carry it
    (once if some row carries it, not at all otherwise), and every row that
    carries it gets the resolved location, the later ones from the
    request-scoped map. *)
Theorem list_lookup_once
        (ipdb : string -> IPAddress + error)
        (listRows : ConversationListReq -> list ConversationListItem * Z + error)
        (request : ConversationListReq) (rows : list ConversationListItem)
        (total : Z) (w : World) (ip : string) (a : IPAddress) :
  listRows request = inl (rows, total) ->
  ipdb ip = inl a ->
  exists rows' w',
    GetConversationList ipdb listRows request w
    = ((Some (NewPaginatedResult rows' total), None), w')
    /\ count_lookups ip (w_calls w')
       = (count_lookups ip (w_calls w) + (if has_ip ip rows then 1 else 0))%nat
    /\ (count_lookups ip (w_calls w') <= count_lookups ip (w_calls w) + 1)%nat
    /\ Forall (fun r' => li_RemoteIP r' = ip -> li_IPAddress r' = Some a) rows'.
Proof.
  intros Hrows Hip.
  destruct (GetConversationList_ok ipdb listRows request rows total w Hrows)
    as (w' & Hr & Hcnt & _ & _).
  exists (map (enriched ipdb) rows), w'. split; [exact Hr|].
  rewrite (Hcnt ip a Hip). split; [reflexivity|].
  split; [destruct (has_ip ip rows); lia|].
  apply Forall_forall. intros r' Hin Hr'.
  apply list_elem_of_In, in_map_iff in Hin. destruct Hin as (r & <- & _).
  unfold enriched in *.
  destruct (ipdb (li_RemoteIP r)) as [a0|e] eqn:E; cbn in *.
  - rewrite Hr' in E. congruence.
  - rewrite Hr' in E. congruence.
Qed.

Lemma list_lookup_once_witness :
  listRows0 request0 = inl ([row1; row2; row3], 3%Z)
  /\ ipdb0 "10.0.0.1" = inl beijing
  /\ exists rows' w',
      GetConversationList ipdb0 listRows0 request0 world0
      = ((Some (NewPaginatedResult rows' 3%Z), None), w')
      /\ count_lookups "10.0.0.1" (w_calls w') = 1%nat
      /\ Forall (fun r' => li_RemoteIP r' = "10.0.0.1"
                           -> li_IPAddress r' = Some beijing) rows'.
Proof.
  split; [reflexivity|]. split; [reflexivity|].
  destruct (list_lookup_once ipdb0 listRows0 request0 [row1; row2; row3] 3%Z
              world0 "10.0.0.1" beijing eq_refl eq_refl)
    as (rows' & w' & Hr & Hc & _ & Hf).
  exists rows', w'. split; [exact Hr|]. split; [exact Hc|exact Hf].
Defined.

(** Claim C8 as stated fails: a lookup that fails is not entered in the
    map, so an IP that does not resolve is looked up again for every row
    that carries it; two rows share the IP below and two lookups of it are
    issued. *)
Lemma list_lookup_once_counterexample :
  li_RemoteIP row1 = li_RemoteIP row2
  /\ w_calls (snd (GetConversationList ipdb_none listRows0 request0 world0))
     = [RepoGetConversationList request0; IPGetIPAddress "10.0.0.1";
        IPGetIPAddress "10.0.0.1"; IPGetIPAddress "not-an-ip"]
  /\ count_lookups "10.0.0.1"
       (w_calls (snd (GetConversationList ipdb_none listRows0 request0 world0)))
     = 2%nat.
Proof. repeat split; reflexivity. Qed.

Lemma geo_failure_not_fatal_witness :
  (exists rows' w',
      GetConversationList ipdb0 listRows0 request0 world0
      = ((Some (NewPaginatedResult rows' 3%Z), None), w')
      /\ rows' !! 2%nat = Some row3
      /\ In (lookup_failed (mkError "ip not found") "not-an-ip") (w_log w'))
  /\ (exists d' w',
         GetConversationDetail ipdb0 (fun _ => inl detail0)
           (fun _ => inl [message0]) (fun _ => inl []) "c-3" world0
         = ((Some d', None), w')
         /\ d_Messages d' = [message0]
         /\ d_IPAddress d' = None).
Proof.
  pose proof (geo_failure_not_fatal ipdb0 listRows0
                (fun _ => inl detail0) (fun _ => inl [message0])
                (fun _ => inl []) world0) as [Hlist Hdetail].
  split.
  - destruct (Hlist request0 [row1; row2; row3] 3%Z 2%nat row3
                (mkError "ip not found") eq_refl eq_refl eq_refl eq_refl)
      as (rows' & w' & Hr & Hi & _ & Hl).
    exists rows', w'. split; [exact Hr|]. split; [exact Hi|exact Hl].
  - destruct (Hdetail "c-3" detail0 (mkError "ip not found") [message0] []
                eq_refl eq_refl eq_refl eq_refl eq_refl)
      as (d' & w' & Hr & Hd & Hn & _).
    exists d', w'. split; [exact Hr|]. split; [now rewrite Hd|exact Hn].
Defined.

(** *** The retention sweep *)

(** Claim C9.  One tick of the sweep issues one deletion.  When the
    deletion succeeds, every stat record older than 24 hours at the time
    of the tick is gone and every record newer than that is still there.
    When it fails, the failure is logged, nothing is retried and the
    records stay for the next tick. *)
Theorem sweep_tick (removeOldDataErr : Z -> option error) (w : World) :
  let w' := snd (RemoveOldStatData removeOldDataErr w) in
  w_calls w' = w_calls w ++ [StatRemoveOldData]
  /\ w_now w' = w_now w
  /\ match removeOldDataErr (w_now w) with
     | None =>
         (forall r, In r (w_stats w) ->
                    (st_CreatedAt r < w_now w - 24 * 3600)%Z ->
                    ~ In r (w_stats w'))
         /\ (forall r, In r (w_stats w) ->
                       (w_now w - 24 * 3600 < st_CreatedAt r)%Z ->
                       In r (w_stats w'))
         /\ (forall r, In r (w_stats w') -> In r (w_stats w))
     | Some e =>
         w_stats w' = w_stats w
         /\ w_log w'
            = w_log w
              ++ [mkEntry Info "remove old stat data start" [];
                  mkEntry Error "remove old stat data failed"
                    [("error", error_msg e)];
                  mkEntry Info "remove old stat data successful" []]
     end.
Proof.
  unfold RemoveOldStatData, statRepo_RemoveOldData, log_Error, retention.
  run.
  destruct (removeOldDataErr (w_now w)) as [e|]; cbn.
  - rewrite <- !app_assoc. cbn. repeat split; reflexivity.
  - split; [reflexivity|]. split; [reflexivity|].
    split; [|split]; intros r Hin.
    + intros Hold Hin'. apply List.filter_In in Hin' as [_ Hk].
      apply negb_true_iff, Z.ltb_ge in Hk. lia.
    + intros Hnew. apply List.filter_In. split; [exact Hin|].
      apply negb_true_iff, Z.ltb_ge. lia.
    + apply List.filter_In in Hin as [Hin _]. exact Hin.
Qed.

(** ** The matcher finds matches only *)

Lemma orElse_Some {A : Type} (a b : option A) (x : A) :
  orElse a b = Some x -> a = Some x \/ b = Some x.
Proof. destruct a; cbn; auto. Qed.

Lemma star_loop_sound {A : Type} (g : bool) (r : regex)
      (k : input -> captures -> option A) :
  (forall i cs (k0 : input -> captures -> option A) x,
      exec r i cs k0 = Some x ->
      exists i' cs', Matches r i cs i' cs' /\ k0 i' cs' = Some x) ->
  forall n i cs x,
    star_loop g (exec r) k n i cs = Some x ->
    exists i' cs', Matches (Star g r) i cs i' cs' /\ k i' cs' = Some x.
Proof.
  intros Hr. induction n as [|n IH]; intros i cs x H; cbn [star_loop] in H.
  - exists i, cs. split; [constructor|exact H].
  - assert (Hagain :
              exec r i cs
                (fun i' cs' =>
                   if (String.length (rest i') <? String.length (rest i))%nat
                   then star_loop g (exec r) k n i' cs' else None) = Some x ->
              exists i' cs', Matches (Star g r) i cs i' cs' /\ k i' cs' = Some x).
    { intros Ha. apply Hr in Ha as (i1 & cs1 & Hm & Hk).
      destruct (String.length (rest i1) <? String.length (rest i))%nat;
        [|discriminate Hk].
      apply IH in Hk as (i2 & cs2 & Hm2 & Hk2).
      exists i2, cs2. split; [|exact Hk2].
      eapply Matches_Star_more; eassumption. }
    assert (Hstop : k i cs = Some x ->
                    exists i' cs', Matches (Star g r) i cs i' cs' /\ k i' cs' = Some x).
    { intros Hk. exists i, cs. split; [constructor|exact Hk]. }
    destruct g; apply orElse_Some in H as [H|H]; auto.
Qed.

Lemma exec_sound {A : Type} (r : regex) :
  forall i cs (k : input -> captures -> option A) x,
    exec r i cs k = Some x ->
    exists i' cs', Matches r i cs i' cs' /\ k i' cs' = Some x.
Proof.
  induction r as [| c | cl | r1 IH1 r2 IH2 | r1 IH1 r2 IH2 | g r1 IH1
                  | n r1 IH1 | |]; intros i cs k x H; cbn [exec] in H.
  - exists i, cs. split; [constructor|exact H].
  - destruct i as [p s]. cbn [rest] in H. destruct s as [|c' s']; [discriminate H|].
    destruct (Ascii.eqb_spec c c') as [<-|]; [|discriminate H].
    eexists _, _. split; [constructor|exact H].
  - destruct i as [p s]. cbn [rest] in H. destruct s as [|c' s']; [discriminate H|].
    destruct (class_mem cl c') eqn:E; [|discriminate H].
    eexists _, _. split; [constructor; exact E|exact H].
  - apply IH1 in H as (i1 & cs1 & Hm1 & H).
    apply IH2 in H as (i2 & cs2 & Hm2 & H).
    exists i2, cs2. split; [econstructor; eassumption|exact H].
  - apply orElse_Some in H as [H|H].
    + apply IH1 in H as (i1 & cs1 & Hm & H).
      exists i1, cs1. split; [now apply Matches_Alt_l|exact H].
    + apply IH2 in H as (i1 & cs1 & Hm & H).
      exists i1, cs1. split; [now apply Matches_Alt_r|exact H].
  - eapply star_loop_sound; [exact IH1|exact H].
  - apply IH1 in H as (i1 & cs1 & Hm & H).
    eexists _, _. split; [constructor; exact Hm|exact H].
  - destruct (at_bol i) eqn:E; [|discriminate H].
    exists i, cs. split; [constructor; exact E|exact H].
  - destruct (at_eol i) eqn:E; [|discriminate H].
    exists i, cs. split; [constructor; exact E|exact H].
Qed.

Lemma exec_Cat_step {A : Type} (r1 r2 : regex) (i : input) (cs : captures)
      (k : input -> captures -> option A) (x : A) :
  exec (Cat r1 r2) i cs k = Some x ->
  exists i1 cs1, Matches r1 i cs i1 cs1 /\ exec r2 i1 cs1 k = Some x.
Proof. cbn [exec]. intros H. now apply exec_sound in H. Qed.

(** A repetition of a class matches bytes of the class and takes no
    capture. *)
Lemma Matches_Star_Cls (g : bool) (cl : cclass) (i i' : input) (cs cs' : captures) :
  Matches (Star g (Cls cl)) i cs i' cs' ->
  cs' = cs
  /\ exists t, rest i = t +:+ rest i' /\ all_chars (class_mem cl) t = true.
Proof.
  intros H. remember (Star g (Cls cl)) as r eqn:Er.
  induction H; try discriminate Er.
  - split; [reflexivity|]. exists EmptyString. split; reflexivity.
  - injection Er as -> ->. specialize (IHMatches2 eq_refl).
    destruct IHMatches2 as (-> & t & Ht & Hall).
    inversion H; subst. split; [reflexivity|].
    exists (String c t). cbn [rest advance] in *. rewrite Ht.
    split; [reflexivity|]. cbn [all_chars].
    match goal with Hc : class_mem _ _ = true |- _ => rewrite Hc end.
    exact Hall.
Qed.

(** A lazy repetition of a class stops at the first position at which
    the rest of the pattern matches: when the rest always matches in front
    of a byte that satisfies [f], no such byte is consumed. *)
Lemma lazy_class_avoids {A : Type} (cl : cclass) (f : ascii -> bool)
      (k : input -> captures -> option A) :
  (forall p c s cs, f c = true -> k (mkInput p (String c s)) cs <> None) ->
  forall n i cs x,
    star_loop false (exec (Cls cl)) k n i cs = Some x ->
    exists t i',
      rest i = t +:+ rest i'
      /\ k i' cs = Some x
      /\ all_chars (fun c => class_mem cl c && negb (f c)) t = true.
Proof.
  intros Hk. induction n as [|n IH]; intros i cs x H; cbn [star_loop] in H.
  - exists EmptyString, i. repeat split. exact H.
  - destruct (k i cs) as [y|] eqn:Eki; cbn [orElse] in H.
    + injection H as <-. exists EmptyString, i. repeat split. exact Eki.
    + cbn [exec] in H. destruct i as [p s]. cbn [rest] in *.
      destruct s as [|c s']; [discriminate H|].
      destruct (class_mem cl c) eqn:Ecl; [|discriminate H].
      cbn [rest advance] in H.
      destruct (String.length s' <? String.length (String c s'))%nat;
        [|discriminate H].
      apply IH in H as (t & i' & Ht & Hki' & Hall).
      exists (String c t), i'. cbn [rest advance] in Ht. rewrite Ht.
      split; [reflexivity|]. split; [exact Hki'|].
      cbn [all_chars]. rewrite Ecl, Hall.
      destruct (f c) eqn:Ef; [|reflexivity].
      exfalso. exact (Hk p c s' cs Ef Eki).
Qed.

Lemma take_str_app (t s : string) :
  take_str (String.length (t +:+ s) - String.length s) (t +:+ s) = t.
Proof.
  rewrite length_app_str.
  replace (String.length t + String.length s - String.length s)%nat
    with (String.length t) by lia.
  induction t as [|c t IH]; [now destruct s|].
  cbn [String.length take_str]. change (String c t +:+ s) with (String c (t +:+ s)).
  cbn [take_str]. now rewrite IH.
Qed.

Ltac invert_clear H := inversion H; subst; clear H.

Lemma reLine_match (i : input) (s' : string) (cs : captures) :
  match_here reLine i = Some (s', cs) ->
  exists mk ws1 ds ws2 name url,
    rest i = mk +:+ ws1 +:+ "[" +:+ ds +:+ "]." +:+ ws2 +:+ "[" +:+ name
                +:+ "](" +:+ url +:+ ")" +:+ s'
    /\ at_bol i = true
    /\ (mk = ">" \/ mk = String "\" "u003e")
    /\ all_chars is_space ws1 = true
    /\ all_chars is_space ws2 = true
    /\ ds <> EmptyString
    /\ all_chars is_digit ds = true
    /\ all_chars (fun c => negb (Ascii.eqb c newline)) name = true
    /\ all_chars (fun c => negb (Ascii.eqb c newline) && negb (Ascii.eqb c ")"))
         url = true
    /\ forall a b t,
        group_text (mkFound a b t cs) 1 = ds
        /\ group_text (mkFound a b t cs) 2 = name
        /\ group_text (mkFound a b t cs) 3 = url.
Proof.
  unfold match_here, reLine, Seq. cbn [foldr]. intros H.
  do 12 (let M := fresh "M" in
         let i' := fresh "j" in
         let c' := fresh "caps" in
         apply exec_Cat_step in H as (i' & c' & M & H)).
  cbn [exec] in H.
  apply (lazy_class_avoids (Dot false) (fun c => Ascii.eqb c ")")) in H.
  2:{ intros p ch s cs0 Hc. apply Ascii.eqb_eq in Hc. subst ch. cbn. discriminate. }
  destruct H as (url & j' & Hurl & Hk & Hall).
  destruct j' as [q' r']. cbn [rest advance] in Hk.
  destruct r' as [|c' r'']; [discriminate Hk|].
  destruct (Ascii.eqb_spec ")" c') as [<-|]; [|discriminate Hk].
  injection Hk as -> <-.
  unfold quoteMarker, Plus in *. cbn [Lits] in *.
  repeat match goal with
         | M : Matches Bol _ _ _ _ |- _ => invert_clear M
         | M : Matches (Chr _) _ _ _ _ |- _ => invert_clear M
         | M : Matches (Cls _) _ _ _ _ |- _ => invert_clear M
         | M : Matches (Cat _ _) _ _ _ _ |- _ => invert_clear M
         | M : Matches (Grp _ _) _ _ _ _ |- _ => invert_clear M
         | M : Matches (Alt _ _) _ _ _ _ |- _ => invert_clear M
         | M : Matches (Star _ (Cls _)) _ _ _ _ |- _ =>
             let t := fresh "t" in
             let Ht := fresh "Ht" in
             let Hc := fresh "Hc" in
             apply Matches_Star_Cls in M as (-> & t & Ht & Hc)
         end; cbn [rest advance] in *.
  all: match goal with
       | H1 : ?s2 = ?ws1 +:+ String "[" (String ?c ?s3),
         H2 : ?s3 = ?ds +:+ String "]" (String "." ?s1),
         H3 : ?s1 = ?ws2 +:+ String "[" ?s0,
         H4 : ?s0 = ?name +:+ String "]" (String "(" ?s),
         H5 : ?s = ?url +:+ String ")" _
         |- context [at_bol {| prev := _; rest := String ">" _ |}] =>
           exists ">", ws1, (String c ds), ws2, name, url; subst s2 s3 s1 s0 s
       | H1 : ?s2 = ?ws1 +:+ String "[" (String ?c ?s3),
         H2 : ?s3 = ?ds +:+ String "]" (String "." ?s1),
         H3 : ?s1 = ?ws2 +:+ String "[" ?s0,
         H4 : ?s0 = ?name +:+ String "]" (String "(" ?s),
         H5 : ?s = ?url +:+ String ")" _
         |- _ =>
           exists (String "\" "u003e"), ws1, (String c ds), ws2, name, url;
           subst s2 s3 s1 s0 s
       end.
  all: (split; [reflexivity|]); (split; [assumption|]);
    (split; [(left; reflexivity) || (right; reflexivity)|]);
    (split; [assumption|]); (split; [assumption|]);
    (split; [discriminate|]).
  all: (split; [cbn [all_chars];
                match goal with Hd : class_mem Digit _ = true |- _ =>
                  cbn [class_mem] in Hd; rewrite Hd end; assumption|]).
  all: (split; [assumption|]); (split; [assumption|]).
  all: intros a b t'; unfold group_text; cbn [List.find fst Nat.eqb f_caps].
  all: repeat split.
  all: match goal with
       | |- take_str _ (String ?c (?t +:+ ?X)) = String ?c ?t =>
           apply (take_str_app (String c t) X)
       | |- take_str _ (?t +:+ ?X) = ?t => apply (take_str_app t X)
       end.
Qed.

(** Every match the scan reports is a successful attempt at its start. *)
Lemma scan_found (r : regex) (s : string) :
  forall p off cur m,
    In m (scan r p s off cur) ->
    exists q s',
      match_here r (mkInput q (f_text m)) = Some (s', f_caps m)
      /\ (f_end m - f_start m
          = String.length (f_text m) - String.length s')%nat.
Proof.
  induction s as [|c s IH]; intros p off cur m Hin.
  - destruct cur as [|[|k]]; cbn [scan] in Hin; try (now destruct Hin);
      destruct (match_here r _) as [[s' cs]|] eqn:E; try (now destruct Hin);
      destruct (String.length _ - String.length _)%nat eqn:El;
      cbn in Hin; try (now destruct Hin);
      destruct Hin as [<-|[]]; cbn [f_text f_caps f_start f_end];
      exists p, s'; (split; [exact E|]); rewrite El; lia.
  - assert (Hn : forall q cur',
               In m (scan r q s (S off) cur') ->
               exists q0 s',
                 match_here r (mkInput q0 (f_text m)) = Some (s', f_caps m)
                 /\ (f_end m - f_start m
                     = String.length (f_text m) - String.length s')%nat).
    { intros q cur' H. eapply IH. exact H. }
    destruct cur as [|[|k]]; cbn [scan] in Hin; try (eapply Hn; exact Hin);
      destruct (match_here r _) as [[s' cs]|] eqn:E; try (eapply Hn; exact Hin);
      destruct (String.length _ - String.length _)%nat eqn:El;
      try (eapply Hn; exact Hin);
      (destruct Hin as [<-|Hin]; [|eapply Hn; exact Hin]);
      cbn [f_text f_caps f_start f_end];
      exists p, s'; (split; [exact E|]); rewrite El; lia.
Qed.

(** The guard [len(match) == 4] never skips a match: the loop builds one
    reference per match of the line pattern. *)
Lemma references_of_block_map (cid aid block : string) :
  references_of_block cid aid block
  = map (fun m => reference_of cid aid (map (group_text m) (seq 0 4)))
        (allMatches reLine block).
Proof.
  unfold references_of_block, FindAllStringSubmatch.
  generalize (allMatches reLine block). intros ms.
  assert (Hgen : forall acc,
             fold_left
               (fun refs match_ =>
                  if (length match_ =? 4)%nat
                  then refs ++ [reference_of cid aid match_]
                  else refs)
               (map (fun m => map (group_text m) (seq 0 4)) ms) acc
             = acc ++ map (fun m => reference_of cid aid
                                      (map (group_text m) (seq 0 4))) ms).
  { induction ms as [|m ms IH]; intros acc; cbn [map fold_left].
    - now rewrite app_nil_r.
    - replace (length (map (group_text m) (seq 0 4)) =? 4)%nat
        with true by reflexivity.
      rewrite IH, <- app_assoc. reflexivity. }
  apply (Hgen []).
Qed.

Lemma extract_cases (cid aid text : string) :
  extractReferencesBlock cid aid text = []
  \/ exists n, extractReferencesBlock cid aid text
               = references_of_block cid aid (drop_str n text).
Proof.
  destruct (allMatches reBlock text) as [|m0 ms0] eqn:E.
  - left. now apply extract_none.
  - right. destruct (exists_last (l := m0 :: ms0)) as (ms & m & Hl); [discriminate|].
    rewrite Hl in E. exists (f_start m). eapply extract_last. exact E.
Qed.

(** Every reference returned is read off a match of the line pattern in
    the text. *)
Lemma extract_elements (cid aid text : string) (r : ConversationReference) :
  In r (extractReferencesBlock cid aid text) ->
  exists pre i s' cs,
    text = pre +:+ rest i
    /\ match_here reLine i = Some (s', cs)
    /\ r = reference_of cid aid
             (map (group_text (mkFound 0 0 EmptyString cs)) (seq 0 4)).
Proof.
  intros Hin. destruct (extract_cases cid aid text) as [E|(n & E)];
    rewrite E in Hin; [destruct Hin|].
  rewrite references_of_block_map in Hin. apply in_map_iff in Hin.
  destruct Hin as (m & <- & Hm).
  destruct (scan_found _ _ _ _ _ _ Hm) as (q & s' & Hmatch & _).
  destruct (scan_text _ _ _ _ _ _ Hm) as [_ Htext].
  exists (take_str (n + (f_start m - 0)) text), (mkInput q (f_text m)), s', (f_caps m).
  split; [|split; [exact Hmatch|reflexivity]].
  cbn [rest]. rewrite Htext, drop_drop_str. apply take_drop_str.
Qed.

Lemma app_str_assoc (a b c : string) : (a +:+ b) +:+ c = a +:+ (b +:+ c).
Proof.
  induction a as [|x a IH]; [reflexivity|].
  change (String x ((a +:+ b) +:+ c) = String x (a +:+ (b +:+ c))).
  now rewrite IH.
Qed.

(** Every reference returned was read off the text: the text holds a
    citation (a sigil, optional white space, a bracketed number and its
    dot, optional white space, and a markdown link) whose link text is the
    name and whose target is the URL of the reference. *)
Theorem extract_sound (cid aid text : string) :
  Forall (fun r =>
            exists pre mk ws1 ds ws2 post,
              text = pre +:+ citation mk ws1 ds ws2 (ref_Name r) (ref_URL r)
                         +:+ post
              /\ (mk = ">" \/ mk = escaped_marker)
              /\ all_chars is_space ws1 = true
              /\ all_chars is_space ws2 = true
              /\ ds <> EmptyString
              /\ all_chars is_digit ds = true)
         (extractReferencesBlock cid aid text).
Proof.
  apply Forall_forall. intros r Hin. apply list_elem_of_In in Hin.
  destruct (extract_elements cid aid text r Hin)
    as (pre & i & s' & cs & Htext & Hm & ->).
  destruct (reLine_match i s' cs Hm)
    as (mk & ws1 & ds & ws2 & name & url & Hrest & _ & Hmk & Hw1 & Hw2
        & Hds & Hdig & _ & _ & Hg).
  destruct (Hg 0%nat 0%nat EmptyString) as (_ & Hname & Hurl).
  exists pre, mk, ws1, ds, ws2, s'.
  cbn [reference_of ref_Name ref_URL map seq nth]. rewrite Hname, Hurl.
  split; [|repeat split; assumption].
  rewrite Htext, Hrest. unfold citation.
  now rewrite !app_str_assoc.
Qed.

(** No name that is returned holds a newline, and no URL holds a newline
    or a closing parenthesis: the captures are lazy and stay on one line,
    and the URL ends at the first closing parenthesis. *)
Theorem extract_fields_one_line (cid aid text : string) :
  Forall (fun r =>
            all_chars not_newline (ref_Name r) = true
            /\ all_chars not_newline_or_paren (ref_URL r) = true)
         (extractReferencesBlock cid aid text).
Proof.
  apply Forall_forall. intros r Hin. apply list_elem_of_In in Hin.
  destruct (extract_elements cid aid text r Hin)
    as (pre & i & s' & cs & Htext & Hm & ->).
  destruct (reLine_match i s' cs Hm)
    as (mk & ws1 & ds & ws2 & name & url & _ & _ & _ & _ & _
        & _ & _ & Hn & Hu & Hg).
  destruct (Hg 0%nat 0%nat EmptyString) as (_ & Hname & Hurl).
  cbn [reference_of ref_Name ref_URL map seq nth]. rewrite Hname, Hurl.
  split; assumption.
Qed.

(** ** The handlers: further properties *)

Lemma same_stores_refl (w : World) : same_stores w w.
Proof. repeat split. Qed.

Lemma same_stores_trans (w1 w2 w3 : World) :
  same_stores w1 w2 -> same_stores w2 w3 -> same_stores w1 w3.
Proof.
  unfold same_stores. intros (a1 & a2 & a3 & a4 & a5) (b1 & b2 & b3 & b4 & b5).
  repeat split; congruence.
Qed.

Lemma enrich_frame (ipdb : string -> IPAddress + error)
      (m : gmap string IPAddress) (r : ConversationListItem) (w : World) :
  exists ips,
    w_calls (snd (enrich ipdb m r w)) = w_calls w ++ map IPGetIPAddress ips
    /\ (length ips <= 1)%nat
    /\ same_stores w (snd (enrich ipdb m r w)).
Proof.
  unfold enrich, ipRepo_GetIPAddress.
  destruct (m !! li_RemoteIP r) as [a0|].
  - exists []. run. rewrite app_nil_r. repeat split. lia.
  - exists [li_RemoteIP r]. run.
    destruct (ipdb (li_RemoteIP r)); cbn; repeat split; lia.
Qed.

Lemma enrich_rows_frame (ipdb : string -> IPAddress + error)
      (rows : list ConversationListItem) :
  forall (m : gmap string IPAddress) (w : World),
  exists ips,
    w_calls (snd (enrich_rows ipdb m rows w)) = w_calls w ++ map IPGetIPAddress ips
    /\ (length ips <= length rows)%nat
    /\ same_stores w (snd (enrich_rows ipdb m rows w)).
Proof.
  induction rows as [|r rows IH]; intros m w.
  - exists []. cbn. rewrite app_nil_r. repeat split. lia.
  - destruct (enrich_frame ipdb m r w) as (ips1 & Hc1 & Hl1 & Hs1).
    destruct (enrich ipdb m r w) as [[m1 r1] w1] eqn:E1. cbn [snd] in *.
    destruct (IH m1 w1) as (ips2 & Hc2 & Hl2 & Hs2).
    destruct (enrich_rows ipdb m1 rows w1) as [[m2 rows2] w2] eqn:E2.
    cbn [snd] in *.
    assert (E : enrich_rows ipdb m (r :: rows) w = ((m2, r1 :: rows2), w2)).
    { cbn [enrich_rows]. unfold bind. rewrite E1, E2. reflexivity. }
    rewrite E. cbn [snd].
    exists (ips1 ++ ips2). rewrite Hc2, Hc1, map_app, <- app_assoc.
    split; [reflexivity|]. split; [rewrite length_app; cbn; lia|].
    eapply same_stores_trans; eassumption.
Qed.

(** A listing reads only: it issues the one read of the store and then
    nothing but IP lookups, at most one per row and none when the read
    fails; it never writes the geo cache and leaves every store as it
    was. *)
Theorem GetConversationList_reads_only
        (ipdb : string -> IPAddress + error)
        (listRows : ConversationListReq -> list ConversationListItem * Z + error)
        (request : ConversationListReq) (w : World) :
  let w' := snd (GetConversationList ipdb listRows request w) in
  same_stores w w'
  /\ exists ips,
      w_calls w'
      = w_calls w ++ RepoGetConversationList request :: map IPGetIPAddress ips
      /\ match listRows request with
         | inl (rows, _) => (length ips <= length rows)%nat
         | inr _ => ips = []
         end.
Proof.
  cbv zeta. unfold GetConversationList, repo_GetConversationList, bind, issue, ret.
  destruct (listRows request) as [[rows total]|err].
  - match goal with
    | |- context [enrich_rows ipdb ∅ rows ?w0] =>
        destruct (enrich_rows_frame ipdb rows ∅ w0) as (ips & Hc & Hl & Hs);
        destruct (enrich_rows ipdb ∅ rows w0) as [[m' rows'] w1]
    end.
    cbn [snd w_calls] in *.
    split; [exact Hs|]. exists ips. split; [|exact Hl].
    rewrite Hc. now rewrite <- app_assoc.
  - cbn. split; [repeat split|]. exists []. split; reflexivity.
Qed.

(** The request-scoped map changes how many lookups are made, never the
    rows returned: each row comes back, in the order of the store, with
    the location the IP database gives for its own IP, or as it was when
    there is none; the total is the one of the store. *)
Theorem GetConversationList_rows
        (ipdb : string -> IPAddress + error)
        (listRows : ConversationListReq -> list ConversationListItem * Z + error)
        (request : ConversationListReq) (rows : list ConversationListItem)
        (total : Z) (w : World) :
  listRows request = inl (rows, total) ->
  fst (GetConversationList ipdb listRows request w)
  = (Some (NewPaginatedResult
             (map (fun r => match ipdb (li_RemoteIP r) with
                            | inl a => li_set_IPAddress (Some a) r
                            | inr _ => r
                            end) rows)
             total),
     None).
Proof.
  intros H.
  destruct (GetConversationList_ok ipdb listRows request rows total w H)
    as (w' & Hr & _). rewrite Hr. reflexivity.
Qed.

Lemma GetConversationList_rows_witness :
  listRows0 request0 = inl ([row1; row2; row3], 3%Z)
  /\ fst (GetConversationList ipdb0 listRows0 request0 world0)
     = (Some (NewPaginatedResult
                [li_set_IPAddress (Some beijing) row1;
                 li_set_IPAddress (Some beijing) row2; row3] 3%Z),
        None).
Proof.
  split; [reflexivity|].
  apply (GetConversationList_rows ipdb0 listRows0 request0 [row1; row2; row3]).
  reflexivity.
Defined.

(** A failed lookup is not remembered: an IP that does not resolve is
    looked up once for every row that carries it, and the log gains, in
    the order of the rows, one error line for every row whose IP does not
    resolve. *)
Theorem GetConversationList_failed_lookups
        (ipdb : string -> IPAddress + error)
        (listRows : ConversationListReq -> list ConversationListItem * Z + error)
        (request : ConversationListReq) (rows : list ConversationListItem)
        (total : Z) (w : World) (ip : string) (e : error) :
  listRows request = inl (rows, total) ->
  ipdb ip = inr e ->
  let w' := snd (GetConversationList ipdb listRows request w) in
  count_lookups ip (w_calls w')
  = (count_lookups ip (w_calls w) + count_ip ip rows)%nat
  /\ w_log w'
     = w_log w
       ++ flat_map (fun r => match ipdb (li_RemoteIP r) with
                             | inl _ => []
                             | inr e' => [lookup_failed e' (li_RemoteIP r)]
                             end) rows.
Proof.
  intros H Hip.
  destruct (GetConversationList_ok ipdb listRows request rows total w H)
    as (w' & Hr & _ & Hcnt & Hl). rewrite Hr. cbn [snd].
  split; [exact (Hcnt ip e Hip)|exact Hl].
Qed.

Lemma GetConversationList_failed_lookups_witness :
  listRows0 request0 = inl ([row1; row2; row3], 3%Z)
  /\ ipdb_none "10.0.0.1" = inr (mkError "ip not found")
  /\ count_lookups "10.0.0.1"
       (w_calls (snd (GetConversationList ipdb_none listRows0 request0 world0)))
     = 2%nat
  /\ length (w_log (snd (GetConversationList ipdb_none listRows0 request0 world0)))
     = 3%nat.
Proof.
  split; [reflexivity|]. split; [reflexivity|].
  destruct (GetConversationList_failed_lookups ipdb_none listRows0 request0
              [row1; row2; row3] 3%Z world0 "10.0.0.1" (mkError "ip not found")
              eq_refl eq_refl) as [Hc Hl].
  split; [exact Hc|]. rewrite Hl. reflexivity.
Defined.

(** [GetConversationDetail] reads only, and stops at the first read that
    fails: after a failed fetch of the conversation nothing else is
    called; the IP lookup comes before the messages are fetched; the
    references are fetched only when the messages were; no store is
    written. *)
Theorem GetConversationDetail_calls
        (ipdb : string -> IPAddress + error)
        (detailOf : string -> ConversationDetailResp + error)
        (messagesOf : string -> list ConversationMessage + error)
        (referencesOf : string -> list ConversationReference + error)
        (conversationID : string) (w : World) :
  let w' := snd (GetConversationDetail ipdb detailOf messagesOf referencesOf
                   conversationID w) in
  same_stores w w'
  /\ w_calls w'
     = w_calls w
       ++ RepoGetConversationDetail conversationID
       :: match detailOf conversationID with
          | inr _ => []
          | inl conversation =>
              IPGetIPAddress (d_RemoteIP conversation)
              :: RepoGetConversationMessagesByID conversationID
              :: match messagesOf conversationID with
                 | inr _ => []
                 | inl _ => [RepoGetConversationReferences conversationID]
                 end
          end.
Proof.
  unfold GetConversationDetail, repo_GetConversationDetail, ipRepo_GetIPAddress,
    repo_GetConversationMessagesByID, repo_GetConversationReferences.
  run.
  destruct (detailOf conversationID) as [c|err]; cbn;
    [|split; [repeat split|reflexivity]].
  destruct (ipdb (d_RemoteIP c)) as [a|err]; cbn;
    destruct (messagesOf conversationID) as [ms|err']; cbn;
    try destruct (referencesOf conversationID) as [rs|err'']; cbn;
    rewrite <- ?app_assoc; cbn; (split; [repeat split|reflexivity]).
Qed.

(** A message is stored with the references extracted from its content:
    the store is called exactly once, also when no reference is found,
    and its answer is the result; every reference handed over carries the
    ID of the message itself in the place of the conversation's, and the
    app ID of the message. *)
Theorem CreateChatConversationMessage_stores
        (createMessageErr :
           ConversationMessage -> list ConversationReference -> option error)
        (kbID : string) (message : ConversationMessage) (w : World) :
  let references :=
    extractReferencesBlock (msg_ID message) (msg_AppID message)
      (msg_Content message) in
  let '(r, w') := CreateChatConversationMessage createMessageErr kbID message w in
  r = createMessageErr message references
  /\ w_calls w' = w_calls w ++ [RepoCreateConversationMessage message references]
  /\ w_log w' = w_log w
  /\ same_stores w w'
  /\ Forall (fun x => ref_ConversationID x = msg_ID message
                      /\ ref_AppID x = msg_AppID message) references.
Proof.
  unfold CreateChatConversationMessage, repo_CreateConversationMessage.
  run. repeat split.
  apply Forall_forall. intros x Hin. apply list_elem_of_In in Hin.
  destruct (extract_elements _ _ _ x Hin) as (pre & i & s' & cs & _ & _ & ->).
  split; reflexivity.
Qed.

(** ** The web application: properties *)

Lemma startsWith_split (str p : string) :
  startsWith str p = true -> exists t, str = p +:+ t.
Proof.
  unfold startsWith. revert p. induction str as [|c str IH]; intros p H.
  - destruct p; [now exists EmptyString|].
    apply String.prefix_correct in H. cbn in H. discriminate H.
  - destruct p as [|d p]; [now exists (String c str)|].
    apply String.prefix_correct in H. cbn [String.length String.substring] in H.
    injection H as <- H. apply String.prefix_correct in H.
    destruct (IH p H) as (t & ->). now exists t.
Qed.

Lemma middleware_auth_next (pathname : string) (nodeListResult : option Z) :
  startsWith pathname "/auth" = true ->
  middleware pathname nodeListResult = Next.
Proof.
  intros H. unfold middleware. destruct nodeListResult as [status|]; [|reflexivity].
  rewrite H, andb_false_r.
  destruct (startsWith_split _ _ H) as (t & ->). reflexivity.
Qed.

(** A page under [/auth] always passes, whatever the API answers: the
    login page is never redirected to itself. *)
Theorem middleware_auth_passes (pathname : string) (nodeListResult : option Z) :
  startsWith pathname "/auth" = true ->
  middleware pathname nodeListResult = Next.
Proof. exact (middleware_auth_next pathname nodeListResult). Qed.

Lemma middleware_auth_passes_witness :
  startsWith "/auth/login" "/auth" = true
  /\ middleware "/auth/login" (Some 401%Z) = Next.
Proof.
  split; [vm_compute; reflexivity|].
  apply middleware_auth_passes. vm_compute. reflexivity.
Defined.

Lemma middleware_targets (pathname : string) (nodeListResult : option Z)
      (target : string) (search : list (string * string)) :
  middleware pathname nodeListResult = Redirect target search ->
  (target = "/auth/login" /\ search = [("redirect", pathname)]
   /\ nodeListResult = Some 401%Z /\ startsWith pathname "/auth" = false)
  \/ (target = "/welcome" /\ search = [] /\ pathname = "/").
Proof.
  unfold middleware. destruct nodeListResult as [status|]; [|discriminate].
  destruct (Z.eqb_spec status 401) as [->|Hne]; cbn [andb].
  - destruct (startsWith pathname "/auth") eqn:E; cbn [negb].
    + destruct (String.eqb_spec pathname "/") as [->|]; [|discriminate].
      vm_compute in E. discriminate E.
    + intros [= <- <-]. left. repeat split.
  - destruct (String.eqb_spec pathname "/") as [->|]; [|discriminate].
    intros [= <- <-]. right. repeat split.
Qed.

(** Redirects settle: whatever the API answers to each request, a request
    that was redirected twice passes the third time; there is no redirect
    loop. *)
Theorem middleware_settles (pathname : string) (a1 a2 a3 : option Z)
        (p1 p2 : string) (q1 q2 : list (string * string)) :
  middleware pathname a1 = Redirect p1 q1 ->
  middleware p1 a2 = Redirect p2 q2 ->
  middleware p2 a3 = Next.
Proof.
  intros H1 H2.
  apply middleware_targets in H2 as [(-> & _)|(-> & _ & ->)].
  - apply middleware_auth_next. vm_compute. reflexivity.
  - apply middleware_targets in H1 as [(H & _)|(H & _)]; discriminate H.
Qed.

Lemma middleware_settles_witness :
  middleware "/" (Some 200%Z) = Redirect "/welcome" []
  /\ middleware "/welcome" (Some 401%Z)
     = Redirect "/auth/login" [("redirect", "/welcome")]
  /\ middleware "/auth/login" (Some 401%Z) = Next.
Proof.
  split; [vm_compute; reflexivity|]. split; [vm_compute; reflexivity|].
  eapply (middleware_settles "/" (Some 200%Z) (Some 401%Z) (Some 401%Z)).
  - vm_compute. reflexivity.
  - vm_compute. reflexivity.
Defined.

Lemma substring_take_drop (m n : nat) (s : string) :
  String.substring m n s = take_str n (drop_str m s).
Proof.
  revert n s. induction m as [|m IH]; intros n s.
  - cbn [drop_str]. revert s. induction n as [|n IHn]; intros s.
    + now destruct s.
    + destruct s as [|c s]; [reflexivity|]. cbn. now rewrite IHn.
  - destruct s as [|c s]; [now destruct n|]. cbn. apply IH.
Qed.

Lemma index_split (sub s : string) (m : nat) :
  String.index 0 sub s = Some m ->
  s = take_str m s +:+ sub +:+ drop_str (m + String.length sub) s.
Proof.
  intros H. apply String.index_correct1 in H.
  rewrite substring_take_drop in H.
  rewrite (take_drop_str m s) at 1. f_equal.
  rewrite (take_drop_str (String.length sub) (drop_str m s)) at 1.
  now rewrite H, drop_drop_str.
Qed.

Lemma length_take_str (n : nat) (s : string) :
  (n <= String.length s)%nat -> String.length (take_str n s) = n.
Proof.
  revert s. induction n as [|n IH]; intros s H; [reflexivity|].
  destruct s as [|c s]; [cbn in H; lia|]. cbn in *. rewrite IH; lia.
Qed.

Lemma includes_app (pre sub post : string) :
  sub <> EmptyString -> includes (pre +:+ sub +:+ post) sub = true.
Proof.
  intros Hne. unfold includes.
  destruct (String.index 0 sub (pre +:+ sub +:+ post)) eqn:E; [reflexivity|].
  exfalso.
  apply (String.index_correct3 0 (String.length pre) sub _ E Hne); [lia|].
  rewrite substring_take_drop, drop_str_app.
  pose proof (take_str_app sub post) as H.
  rewrite length_app_str in H.
  replace (String.length sub + String.length post - String.length post)%nat
    with (String.length sub) in H by lia.
  exact H.
Qed.

(** [answer] in terms of the text before and after the first newline
    that is directly followed by the closing think tag. *)
Lemma answer_effect (content : string) :
  if includes content blank_close_think || negb (includes content close_think)
  then answer content = content
  else exists pre post,
      content = pre +:+ close_think +:+ post
      /\ indexOf content close_think = Z.of_nat (String.length pre)
      /\ answer content = pre +:+ String newline close_think +:+ post.
Proof.
  unfold answer, indexOf, includes.
  destruct (String.index 0 blank_close_think content) as [k|]; [reflexivity|].
  cbn [negb orb].
  destruct (String.index 0 close_think content) as [m|] eqn:E; [|reflexivity].
  cbn [negb].
  destruct (Z.eqb_spec (Z.of_nat m) (-1)) as [Hm|_]; [lia|]. cbn [negb].
  pose proof (index_split _ _ _ E) as Hs.
  assert (Hlen : (m <= String.length content)%nat).
  { destruct (Nat.le_gt_cases m (String.length content)) as [H|H]; [exact H|].
    exfalso. apply String.index_correct1 in E.
    rewrite substring_take_drop in E.
    assert (Hd : drop_str m content = EmptyString).
    { clear -H. revert content H. induction m as [|m IH]; intros s H; [lia|].
      destruct s as [|c s]; [reflexivity|]. cbn in *. apply IH. lia. }
    rewrite Hd in E. discriminate E. }
  exists (take_str m content), (drop_str (m + 9) content).
  split; [exact Hs|]. rewrite (length_take_str _ _ Hlen).
  split; [reflexivity|].
  unfold slice_to, slice_from, blank_close_think.
  rewrite Nat2Z.id.
  replace (Z.to_nat (Z.of_nat m + 9)) with (m + 9)%nat by lia.
  reflexivity.
Qed.

Lemma close_think_found (content : string) :
  includes content close_think = true ->
  includes content blank_close_think = false ->
  exists pre post,
    content = pre +:+ close_think +:+ post
    /\ answer content = pre +:+ blank_close_think +:+ post.
Proof.
  intros H1 H2.
  unfold answer, indexOf. rewrite H2. cbn [negb].
  unfold includes in H1.
  destruct (String.index 0 close_think content) as [m|] eqn:E; [|discriminate H1].
  destruct (Z.eqb_spec (Z.of_nat m) (-1)) as [Hm|_]; [lia|]. cbn [negb].
  exists (take_str m content), (drop_str (m + 9) content).
  split; [exact (index_split _ _ _ E)|].
  unfold slice_to, slice_from. rewrite Nat2Z.id.
  replace (Z.to_nat (Z.of_nat m + 9)) with (m + 9)%nat by lia.
  reflexivity.
Qed.

Lemma answer_kept (content : string) :
  includes content blank_close_think = true -> answer content = content.
Proof. intros H. unfold answer. now rewrite H. Qed.



(** [answer] is idempotent: rendering the text it gives changes nothing
    more. *)
Theorem answer_idempotent (content : string) :
  answer (answer content) = answer content.
Proof.
  destruct (includes content blank_close_think) eqn:E.
  - now rewrite !(answer_kept content E).
  - destruct (includes content close_think) eqn:E1.
    + destruct (close_think_found content E1 E) as (pre & post & _ & Ha).
      apply answer_kept. rewrite Ha. apply includes_app. discriminate.
    + assert (Hsame : answer content = content).
      { unfold answer, indexOf. rewrite E. cbn [negb].
        unfold includes in E1.
        destruct (String.index 0 close_think content); [discriminate E1|].
        reflexivity. }
      now rewrite !Hsame.
Qed.

(** ** The matcher on well-formed citation lines *)

Lemma orElse_l {A : Type} (a b : option A) (x : A) :
  a = Some x -> orElse a b = Some x.
Proof. now intros ->. Qed.

Lemma length_lt_app (c : ascii) (t s : string) :
  (String.length s < String.length (String c (t +:+ s)))%nat.
Proof. cbn. rewrite length_app_str. lia. Qed.

(** A greedy repetition of a class takes the whole run of bytes of the
    class, provided the rest of the pattern matches after it. *)
Lemma exec_greedy_cls {A : Type} (cl : cclass) (t s : string) :
  all_chars (class_mem cl) t = true ->
  stops cl s = true ->
  forall (p : option ascii) (cs : captures)
         (k : input -> captures -> option A) (x : A),
    k (mkInput (last_of p t) s) cs = Some x ->
    exec (Star true (Cls cl)) (mkInput p (t +:+ s)) cs k = Some x.
Proof.
  intros Ht Hs p cs k x Hk. cbn [exec rest].
  assert (Hgen : forall n p0 t0,
             all_chars (class_mem cl) t0 = true ->
             (String.length (t0 +:+ s) < n)%nat ->
             k (mkInput (last_of p0 t0) s) cs = Some x ->
             star_loop true (exec (Cls cl)) k n (mkInput p0 (t0 +:+ s)) cs
             = Some x).
  { induction n as [|n IH]; intros p0 t0 Ht0 Hn Hk0; [lia|].
    destruct t0 as [|c t0].
    - change (EmptyString +:+ s) with s in *. cbn [last_of] in Hk0.
      cbn [star_loop exec rest].
      destruct s as [|c s']; [exact Hk0|].
      cbn [stops] in Hs. apply negb_true_iff in Hs. rewrite Hs. exact Hk0.
    - cbn [all_chars] in Ht0. apply andb_prop in Ht0 as [Hc Ht0].
      change (String c t0 +:+ s) with (String c (t0 +:+ s)) in *.
      cbn [star_loop exec rest].
      rewrite Hc. cbn [rest advance].
      assert (Hlt : (String.length (t0 +:+ s)
                     <? String.length (String c (t0 +:+ s)))%nat = true).
      { apply Nat.ltb_lt. cbn. lia. }
      rewrite Hlt. apply orElse_l. apply IH; [exact Ht0| |exact Hk0].
      cbn in Hn. lia. }
  apply Hgen; [exact Ht|lia|exact Hk].
Qed.

(** A lazy repetition of a class goes on as long as the rest of the
    pattern fails at once, and stops where it matches. *)
Lemma exec_lazy_cls {A : Type} (cl : cclass) (f : ascii -> bool) (t s : string)
      (k : input -> captures -> option A) :
  all_chars (fun c => class_mem cl c && f c) t = true ->
  (forall q c s0 cs0, f c = true -> k (mkInput q (String c s0)) cs0 = None) ->
  forall (p : option ascii) (cs : captures) (x : A),
    k (mkInput (last_of p t) s) cs = Some x ->
    exec (Star false (Cls cl)) (mkInput p (t +:+ s)) cs k = Some x.
Proof.
  intros Ht Hf p cs x Hk. cbn [exec rest].
  assert (Hgen : forall n p0 t0,
             all_chars (fun c => class_mem cl c && f c) t0 = true ->
             (String.length (t0 +:+ s) < n)%nat ->
             k (mkInput (last_of p0 t0) s) cs = Some x ->
             star_loop false (exec (Cls cl)) k n (mkInput p0 (t0 +:+ s)) cs
             = Some x).
  { induction n as [|n IH]; intros p0 t0 Ht0 Hn Hk0; [lia|].
    destruct t0 as [|c t0].
    - change (EmptyString +:+ s) with s in *. cbn [last_of] in Hk0.
      cbn [star_loop exec rest]. now apply orElse_l.
    - cbn [all_chars] in Ht0. apply andb_prop in Ht0 as [Hc Ht0].
      apply andb_prop in Hc as [Hc Hfc].
      change (String c t0 +:+ s) with (String c (t0 +:+ s)) in *.
      cbn [star_loop exec rest].
      rewrite (Hf p0 c (t0 +:+ s) cs Hfc). cbn [orElse].
      rewrite Hc. cbn [rest advance].
      assert (Hlt : (String.length (t0 +:+ s)
                     <? String.length (String c (t0 +:+ s)))%nat = true).
      { apply Nat.ltb_lt. cbn. lia. }
      rewrite Hlt. apply IH; [exact Ht0| |exact Hk0].
      cbn in Hn. lia. }
  apply Hgen; [exact Ht|lia|exact Hk].
Qed.

Lemma exec_Cat_eq {A : Type} (r1 r2 : regex) (i : input) (cs : captures)
      (k : input -> captures -> option A) :
  exec (Cat r1 r2) i cs k = exec r1 i cs (fun i' cs' => exec r2 i' cs' k).
Proof. reflexivity. Qed.

Lemma exec_Chr_eq {A : Type} (c : ascii) (p : option ascii) (s : string)
      (cs : captures) (k : input -> captures -> option A) :
  exec (Chr c) (mkInput p (String c s)) cs k = k (mkInput (Some c) s) cs.
Proof. cbn [exec rest]. now rewrite Ascii.eqb_refl. Qed.

Lemma exec_Cls_eq {A : Type} (cl : cclass) (c : ascii) (p : option ascii)
      (s : string) (cs : captures) (k : input -> captures -> option A) :
  class_mem cl c = true ->
  exec (Cls cl) (mkInput p (String c s)) cs k = k (mkInput (Some c) s) cs.
Proof. intros H. cbn [exec rest]. now rewrite H. Qed.

Lemma exec_Grp_eq {A : Type} (n : nat) (r : regex) (i : input) (cs : captures)
      (k : input -> captures -> option A) :
  exec (Grp n r) i cs k
  = exec r i cs (fun i' cs' => k i' ((n, (rest i, rest i')) :: cs')).
Proof. reflexivity. Qed.

Lemma exec_Bol_eq {A : Type} (i : input) (cs : captures)
      (k : input -> captures -> option A) :
  at_bol i = true -> exec Bol i cs k = k i cs.
Proof. intros H. cbn [exec]. now rewrite H. Qed.

Lemma exec_Alt_l {A : Type} (r1 r2 : regex) (i : input) (cs : captures)
      (k : input -> captures -> option A) (x : A) :
  exec r1 i cs k = Some x -> exec (Alt r1 r2) i cs k = Some x.
Proof. intros H. cbn [exec]. now apply orElse_l. Qed.

Lemma reLine_complete (q : option ascii) (d name url t : string) :
  at_bol (mkInput q EmptyString) = true ->
  well_formed (d, name, url) ->
  exists cs,
    match_here reLine (mkInput q (cite_line_then d name url t)) = Some (t, cs)
    /\ forall a b s,
        group_text (mkFound a b s cs) 2 = name
        /\ group_text (mkFound a b s cs) 3 = url.
Proof.
  intros Hbol (Hd & Hdig & Hname & Hurl).
  destruct d as [|c d]; [contradiction|].
  cbn [all_chars] in Hdig. apply andb_prop in Hdig as [Hc Hdig].
  eexists. split.
  - unfold match_here, reLine, Seq, cite_line_then. cbn [foldr].
    rewrite exec_Cat_eq, exec_Bol_eq by exact Hbol.
    rewrite exec_Cat_eq. unfold quoteMarker. apply exec_Alt_l.
    rewrite exec_Chr_eq.
    rewrite exec_Cat_eq. apply (exec_greedy_cls Space " "); [reflexivity|reflexivity|].
    cbn [last_of].
    rewrite exec_Cat_eq, exec_Chr_eq.
    rewrite exec_Cat_eq, exec_Grp_eq. unfold Plus. rewrite exec_Cat_eq.
    change (String c d +:+ ?X) with (String c (d +:+ X)).
    rewrite exec_Cls_eq by exact Hc.
    apply (exec_greedy_cls Digit d); [exact Hdig|reflexivity|].
    rewrite exec_Cat_eq, exec_Chr_eq. rewrite exec_Cat_eq, exec_Chr_eq.
    rewrite exec_Cat_eq. apply (exec_greedy_cls Space " "); [reflexivity|reflexivity|].
    cbn [last_of].
    rewrite exec_Cat_eq, exec_Chr_eq.
    rewrite exec_Cat_eq, exec_Grp_eq.
    apply (exec_lazy_cls (Dot false) (fun ch => negb (Ascii.eqb ch "]")) name);
      [exact Hname| |].
    { intros q0 ch s0 cs0 Hch. rewrite exec_Cat_eq. cbn [exec rest].
      rewrite Ascii.eqb_sym. apply negb_true_iff in Hch. now rewrite Hch. }
    rewrite exec_Cat_eq, exec_Chr_eq. rewrite exec_Cat_eq, exec_Chr_eq.
    rewrite exec_Cat_eq, exec_Grp_eq.
    apply (exec_lazy_cls (Dot false) (fun ch => negb (Ascii.eqb ch ")")) url);
      [exact Hurl| |].
    { intros q0 ch s0 cs0 Hch. rewrite exec_Cat_eq. cbn [exec rest].
      rewrite Ascii.eqb_sym. apply negb_true_iff in Hch. now rewrite Hch. }
    rewrite exec_Cat_eq, exec_Chr_eq. cbn [exec rest]. reflexivity.
  - intros a b s. unfold group_text. cbn [List.find fst Nat.eqb f_caps rest].
    split.
    + apply (take_str_app name).
    + apply (take_str_app url).
Qed.

Lemma reBlock_body : reBlock = Cat (Cat block_body (Star true block_body)) (Cat Eol Eps).
Proof. reflexivity. Qed.

Lemma not_space_not_newline (s : string) :
  stops Space s = true ->
  forall {A : Type} (p : option ascii) (cs : captures)
         (k : input -> captures -> option A),
    exec (Opt true (Chr newline)) (mkInput p s) cs k = k (mkInput p s) cs.
Proof.
  intros Hs A p cs k. unfold Opt. cbn [exec rest].
  destruct s as [|c s]; [reflexivity|].
  cbn [stops] in Hs. apply negb_true_iff in Hs.
  destruct (Ascii.eqb_spec newline c) as [<-|_]; [discriminate Hs|reflexivity].
Qed.

(** One round of the block pattern on a well-formed citation line: the
    line and the white space after it are taken. *)
Lemma block_body_complete {A : Type} (q : option ascii) (d name url ws s : string)
      (cs : captures) (k : input -> captures -> option A) (x : A) :
  well_formed (d, name, url) ->
  all_chars (class_mem Space) ws = true ->
  stops Space s = true ->
  k (mkInput (last_of (Some ")"%char) ws) s)
    ((1, (cite_line_then d name url (ws +:+ s), s)) :: cs) = Some x ->
  exec block_body (mkInput q (cite_line_then d name url (ws +:+ s))) cs k = Some x.
Proof.
  intros (Hd & Hdig & Hname & Hurl) Hws Hs Hk.
  destruct d as [|c d]; [contradiction|].
  cbn [all_chars] in Hdig. apply andb_prop in Hdig as [Hc Hdig].
  unfold block_body, Seq. cbn [foldr]. rewrite exec_Grp_eq. cbn [rest].
  unfold cite_line_then at 1.
  rewrite exec_Cat_eq. unfold quoteMarker. apply exec_Alt_l.
  rewrite exec_Chr_eq.
  rewrite exec_Cat_eq. apply (exec_greedy_cls Space " "); [reflexivity|reflexivity|].
  cbn [last_of].
  rewrite exec_Cat_eq, exec_Chr_eq.
  rewrite exec_Cat_eq. unfold Plus. rewrite exec_Cat_eq.
  change (String c d +:+ ?X) with (String c (d +:+ X)).
  rewrite exec_Cls_eq by exact Hc.
  apply (exec_greedy_cls Digit d); [exact Hdig|reflexivity|].
  rewrite exec_Cat_eq, exec_Chr_eq. rewrite exec_Cat_eq, exec_Chr_eq.
  rewrite exec_Cat_eq. apply (exec_greedy_cls Space " "); [reflexivity|reflexivity|].
  cbn [last_of].
  rewrite exec_Cat_eq, exec_Chr_eq.
  rewrite exec_Cat_eq.
  apply (exec_lazy_cls (Dot true) (fun ch => negb (Ascii.eqb ch "]")) name).
  { clear -Hname. induction name as [|ch name IH]; [reflexivity|].
    cbn [all_chars] in *. apply andb_prop in Hname as [H1 H2].
    unfold not_newline_or_bracket in H1. apply andb_prop in H1 as [_ H1].
    rewrite H1, (IH H2). reflexivity. }
  { intros q0 ch s0 cs0 Hch. rewrite exec_Cat_eq. cbn [exec rest].
    rewrite Ascii.eqb_sym. apply negb_true_iff in Hch. now rewrite Hch. }
  rewrite exec_Cat_eq, exec_Chr_eq. rewrite exec_Cat_eq, exec_Chr_eq.
  rewrite exec_Cat_eq.
  apply (exec_lazy_cls (Dot true) (fun ch => negb (Ascii.eqb ch ")")) url).
  { clear -Hurl. induction url as [|ch url IH]; [reflexivity|].
    cbn [all_chars] in *. apply andb_prop in Hurl as [H1 H2].
    unfold not_newline_or_paren in H1. apply andb_prop in H1 as [_ H1].
    rewrite H1, (IH H2). reflexivity. }
  { intros q0 ch s0 cs0 Hch. rewrite exec_Cat_eq. cbn [exec rest].
    rewrite Ascii.eqb_sym. apply negb_true_iff in Hch. now rewrite Hch. }
  rewrite exec_Cat_eq, exec_Chr_eq.
  rewrite exec_Cat_eq.
  apply (exec_greedy_cls Space ws s); [exact Hws|exact Hs|].
  rewrite exec_Cat_eq, (not_space_not_newline s Hs).
  cbn [exec]. exact Hk.
Qed.

Lemma cite_line_longer (d name url t : string) :
  (String.length t < String.length (cite_line_then d name url t))%nat.
Proof.
  unfold cite_line_then.
  repeat (cbn [String.length]; rewrite length_app_str).
  cbn [String.length]. lia.
Qed.

Lemma block_body_empty {A : Type} (q : option ascii) (cs : captures)
      (k : input -> captures -> option A) :
  exec block_body (mkInput q EmptyString) cs k = None.
Proof. reflexivity. Qed.

(** The repetition of the block pattern runs through every well-formed
    line, and the white space after the last, to the end of the text. *)
Lemma block_lines (items : list (string * string * string)) (trail : string) :
  Forall well_formed items ->
  all_chars (class_mem Space) trail = true ->
  forall n q cs,
    (String.length (render_then items trail) < n)%nat ->
    exists cs',
      star_loop true (exec block_body)
        (fun i cs0 => exec (Cat Eol Eps) i cs0 at_end) n
        (mkInput q (render_then items trail)) cs
      = Some (EmptyString, cs').
Proof.
  intros Hwf Htrail. induction items as [|[[d name] url] rest IH];
    intros n q cs Hn; (destruct n as [|n]; [lia|]); cbn [star_loop].
  - exists cs. cbn [render_then]. rewrite block_body_empty. reflexivity.
  - inversion Hwf as [|x l Hx Hrest]; subst.
    specialize (IH Hrest).
    destruct rest as [|[[d2 name2] url2] rest'].
    + cbn [render_then] in *.
      rewrite <- (append_empty_r trail) in Hn |- *.
      destruct (IH n (last_of (Some ")"%char) trail)
                  ((1, (cite_line_then d name url (trail +:+ EmptyString),
                        EmptyString)) :: cs))
        as [cs' H];
        [cbn; pose proof (cite_line_longer d name url (trail +:+ EmptyString)); lia|].
      exists cs'. apply orElse_l.
      apply (block_body_complete q d name url trail EmptyString);
        [exact Hx|exact Htrail|reflexivity|].
      cbn [rest].
      assert (Hlt : (String.length EmptyString
                     <? String.length
                          (cite_line_then d name url (trail +:+ EmptyString)))%nat
                    = true).
      { apply Nat.ltb_lt.
        pose proof (cite_line_longer d name url (trail +:+ EmptyString)).
        cbn [String.length]. lia. }
      rewrite Hlt. exact H.
    + set (s := render_then ((d2, name2, url2) :: rest') trail) in *.
      assert (Hrender : render_then ((d, name, url) :: (d2, name2, url2) :: rest') trail
                        = cite_line_then d name url (String newline EmptyString +:+ s)).
      { reflexivity. }
      rewrite Hrender in *.
      pose proof (cite_line_longer d name url (String newline EmptyString +:+ s))
        as Hlong.
      assert (Hs : (String.length s < n)%nat).
      { assert (Hlong' :
                  (String.length (String newline s)
                   < String.length (cite_line_then d name url (String newline s)))%nat)
          by exact Hlong.
        assert (Hn' : (String.length (cite_line_then d name url (String newline s))
                       < S n)%nat) by exact Hn.
        cbn [String.length] in Hlong'. lia. }
      destruct (IH n (Some newline)
                  ((1, (cite_line_then d name url (String newline EmptyString +:+ s), s))
                     :: cs))
        as [cs' H]; [exact Hs|].
      exists cs'. apply orElse_l.
      apply (block_body_complete q d name url (String newline EmptyString) s);
        [exact Hx|reflexivity|reflexivity|].
      cbn [rest last_of].
      assert (Hlt : (String.length s
                     <? String.length
                          (cite_line_then d name url
                             (String newline EmptyString +:+ s)))%nat = true).
      { apply Nat.ltb_lt.
        assert (Hlong' :
                  (String.length (String newline s)
                   < String.length
                       (cite_line_then d name url
                          (String newline EmptyString +:+ s)))%nat)
          by exact Hlong.
        cbn [String.length] in Hlong'. lia. }
      rewrite Hlt. exact H.
Qed.

Lemma render_nonempty (items : list (string * string * string)) (trail : string) :
  items <> [] -> exists c s, render_then items trail = String c s.
Proof.
  destruct items as [|[[d name] url] rest]; [contradiction|]. intros _.
  cbn [render_then]. unfold cite_line_then. eauto.
Qed.

(** On a block of well-formed lines the block pattern matches from the
    first byte to the last. *)
Lemma reBlock_complete (items : list (string * string * string))
      (trail : string) (q : option ascii) :
  items <> [] ->
  Forall well_formed items ->
  all_chars (class_mem Space) trail = true ->
  exists cs,
    match_here reBlock (mkInput q (render_then items trail))
    = Some (EmptyString, cs).
Proof.
  intros Hne Hwf Htrail. destruct items as [|[[d name] url] rest]; [contradiction|].
  inversion Hwf as [|x l Hx Hrest]; subst.
  unfold match_here. rewrite reBlock_body, !exec_Cat_eq.
  destruct rest as [|[[d2 name2] url2] rest'].
  - cbn [render_then]. rewrite <- (append_empty_r trail).
    destruct (block_lines [] trail Hrest Htrail 1 (last_of (Some ")"%char) trail)
                ((1, (cite_line_then d name url (trail +:+ EmptyString),
                      EmptyString)) :: []))
      as [cs' H]; [cbn; lia|].
    exists cs'.
    apply (block_body_complete q d name url trail EmptyString);
      [exact Hx|exact Htrail|reflexivity|].
    exact H.
  - set (s := render_then ((d2, name2, url2) :: rest') trail) in *.
    destruct (block_lines _ trail Hrest Htrail (S (String.length s)) (Some newline)
                ((1, (cite_line_then d name url (String newline EmptyString +:+ s), s))
                   :: []))
      as [cs' H]; [fold s; lia|].
    exists cs'.
    apply (block_body_complete q d name url (String newline EmptyString) s);
      [exact Hx|reflexivity|reflexivity|].
    exact H.
Qed.

(** Inside a match the scan reports nothing. *)
Lemma scan_within_all (r : regex) (s : string) :
  forall p off, scan r p s off (Within (String.length s)) = [].
Proof.
  induction s as [|c s IH]; intros p off; cbn [String.length scan].
  - destruct (match_here r _) as [[s' cs]|]; reflexivity.
  - apply IH.
Qed.

Lemma allMatches_whole (r : regex) (s : string) (cs : captures) :
  s <> EmptyString ->
  match_here r (mkInput None s) = Some (EmptyString, cs) ->
  allMatches r s = [mkFound 0 (String.length s) s cs].
Proof.
  intros Hne H. unfold allMatches. destruct s as [|c s]; [contradiction|].
  cbn [scan]. rewrite H. cbn [String.length Nat.sub].
  rewrite scan_within_all. reflexivity.
Qed.

Lemma cite_line_split (d name url t : string) :
  cite_line_then d name url t = String ">" (line_tail d name url +:+ t).
Proof.
  unfold cite_line_then, line_tail.
  change (String ?c ?a +:+ ?b) with (String c (a +:+ b)).
  repeat (rewrite ?app_str_assoc;
          change (String ?c ?a +:+ ?b) with (String c (a +:+ b))).
  reflexivity.
Qed.

Lemma scan_skip (r : regex) (m t : string) :
  forall p off k,
    scan r p (m +:+ t) off (Within (String.length m + k))
    = scan r (last_of p m) t (off + String.length m) (Within k).
Proof.
  induction m as [|c m IH]; intros p off k.
  - change (EmptyString +:+ t) with t. cbn [String.length last_of Nat.add].
    now rewrite Nat.add_0_r.
  - change (String c m +:+ t) with (String c (m +:+ t)).
    cbn [String.length Nat.add scan last_of]. rewrite IH. f_equal. lia.
Qed.

Lemma reLine_fails_newline (q : option ascii) (s : string) :
  match_here reLine (mkInput q (String newline s)) = None.
Proof.
  unfold match_here, reLine, Seq. cbn [foldr]. rewrite exec_Cat_eq.
  destruct (at_bol (mkInput q (String newline s))) eqn:E.
  - rewrite (exec_Bol_eq _ _ _ E), exec_Cat_eq. apply exec_starts. reflexivity.
  - cbn [exec]. now rewrite E.
Qed.

Lemma reLine_fails_empty (q : option ascii) :
  match_here reLine (mkInput q EmptyString) = None.
Proof.
  unfold match_here, reLine, Seq. cbn [foldr]. rewrite exec_Cat_eq.
  destruct (at_bol (mkInput q EmptyString)) eqn:E.
  - rewrite (exec_Bol_eq _ _ _ E). reflexivity.
  - cbn [exec]. now rewrite E.
Qed.

Lemma reLine_fails_space (q : option ascii) (c : ascii) (s : string) :
  is_space c = true -> match_here reLine (mkInput q (String c s)) = None.
Proof.
  intros Hc. unfold match_here, reLine, Seq. cbn [foldr]. rewrite exec_Cat_eq.
  destruct (at_bol (mkInput q (String c s))) eqn:E.
  - rewrite (exec_Bol_eq _ _ _ E), exec_Cat_eq. apply exec_starts.
    cbn [starts quoteMarker Lits].
    destruct (Ascii.eqb_spec ">" c) as [<-|_]; [discriminate Hc|].
    destruct (Ascii.eqb_spec "\" c) as [<-|_]; [discriminate Hc|].
    reflexivity.
  - cbn [exec]. now rewrite E.
Qed.

Lemma reLine_scan_space (ws : string) :
  all_chars is_space ws = true ->
  forall q off cur, scan reLine q ws off cur = [].
Proof.
  intros Hws q off cur. apply scan_matches_nowhere. revert q.
  induction ws as [|c ws IH]; intros q; cbn [matches_nowhere]; unfold fails_here.
  - now rewrite reLine_fails_empty.
  - cbn [all_chars] in Hws. apply andb_prop in Hws as [Hc Hws].
    rewrite (reLine_fails_space q c ws Hc). cbn [andb]. now apply IH.
Qed.

(** The line pattern finds the well-formed lines of a block, one match
    per line, in order. *)
Lemma reLine_scan_render (items : list (string * string * string))
      (trail : string) :
  Forall well_formed items ->
  all_chars is_space trail = true ->
  forall q off cur,
    at_bol (mkInput q EmptyString) = true ->
    cur = Free \/ cur = Within 0 ->
    map (fun m => (group_text m 2, group_text m 3))
        (scan reLine q (render_then items trail) off cur)
    = map (fun it => (snd (fst it), snd it)) items.
Proof.
  intros Hwf Htrail.
  induction items as [|[[d name] url] rest IH]; intros q off cur Hq Hcur.
  - cbn [render_then]. destruct Hcur as [-> | ->]; cbn [scan];
      rewrite reLine_fails_empty; reflexivity.
  - inversion Hwf as [|x l Hx Hrest]; subst. specialize (IH Hrest).
    cbn [render_then map fst snd].
    set (t := match rest with
              | [] => trail
              | _ :: _ => String newline (render_then rest trail)
              end).
    destruct (reLine_complete q d name url t Hq Hx) as (cs & Hm & Hg).
    rewrite cite_line_split in *.
    assert (Hlen : (String.length (String ">" (line_tail d name url +:+ t))
                    - String.length t)%nat
                   = S (String.length (line_tail d name url))).
    { cbn [String.length]. rewrite length_app_str. lia. }
    assert (Hstep :
              scan reLine q (String ">" (line_tail d name url +:+ t)) off cur
              = mkFound off (off + S (String.length (line_tail d name url)))
                  (String ">" (line_tail d name url +:+ t)) cs
                :: scan reLine (last_of (Some ">"%char) (line_tail d name url)) t
                     (S off + String.length (line_tail d name url)) (Within 0)).
    { destruct Hcur as [-> | ->]; cbn [scan]; rewrite Hm, Hlen;
        rewrite <- (scan_skip reLine (line_tail d name url) t);
        now rewrite Nat.add_0_r. }
    rewrite Hstep. cbn [map].
    destruct (Hg off (off + S (String.length (line_tail d name url)))
                (String ">" (line_tail d name url +:+ t))) as [-> ->].
    f_equal. subst t. destruct rest as [|y rest'].
    + now rewrite reLine_scan_space.
    + cbn [scan]. rewrite reLine_fails_newline.
      apply IH; [reflexivity|now left].
Qed.

(** A block of well-formed citation lines at the end of a text is read in
    full: when no match of the block pattern starts before the block, and
    only white space follows it, the references returned are those of the
    lines, one per line and in the order of the lines, each with the name
    and the URL of its line. *)
Theorem extract_render (cid aid p trail : string)
        (items : list (string * string * string)) :
  items <> [] ->
  Forall well_formed items ->
  all_chars is_space trail = true ->
  no_match_before reBlock None (p +:+ render_then items trail) (String.length p)
  = true ->
  extractReferencesBlock cid aid (p +:+ render_then items trail)
  = map (item_ref cid aid) items.
Proof.
  intros Hne Hwf Htrail Hp.
  destruct (reBlock_complete items trail None Hne Hwf Htrail) as (cs & Hm).
  destruct (render_nonempty items trail Hne) as (c & s & Hs).
  assert (Hall : allMatches reBlock (render_then items trail)
                 = [mkFound 0 (String.length (render_then items trail))
                      (render_then items trail) cs]).
  { apply allMatches_whole; [rewrite Hs; discriminate|exact Hm]. }
  pose proof (allMatches_after_prefix reBlock p (render_then items trail)
                reBlock_bol_free Hp) as Hpre.
  rewrite Hall in Hpre. cbn [map] in Hpre.
  rewrite (extract_last cid aid _ [] _ Hpre).
  unfold shift. cbn [f_start Nat.add]. rewrite drop_str_app.
  rewrite references_of_block_map. unfold allMatches.
  pose proof (reLine_scan_render items trail Hwf Htrail None 0 Free eq_refl
                (or_introl eq_refl)) as Hscan.
  transitivity
    (map (fun nu : string * string => mkRef cid aid (fst nu) (snd nu))
         (map (fun m => (group_text m 2, group_text m 3))
              (scan reLine None (render_then items trail) 0 Free))).
  - rewrite map_map. apply map_ext. intros m. reflexivity.
  - rewrite Hscan, map_map. apply map_ext. intros it. reflexivity.
Qed.

Lemma extract_render_witness :
  extractReferencesBlock "c1" "app"
    (("Sources:" +:+ nl)
     +:+ render_then [("1", "A", "http://a"); ("12", "B b", "http://b/x?y=1");
                      ("3", "C", "")] (nl +:+ nl))
  = [mkRef "c1" "app" "A" "http://a"; mkRef "c1" "app" "B b" "http://b/x?y=1";
     mkRef "c1" "app" "C" ""].
Proof.
  apply (extract_render "c1" "app" ("Sources:" +:+ nl) (nl +:+ nl)
           [("1", "A", "http://a"); ("12", "B b", "http://b/x?y=1");
            ("3", "C", "")]).
  - discriminate.
  - repeat constructor; discriminate.
  - reflexivity.
  - vm_compute. reflexivity.
Defined.

(** ** A block in the middle of a text *)

Lemma Matches_suffix (r : regex) (i : input) (cs : captures)
      (i' : input) (cs' : captures) :
  Matches r i cs i' cs' -> exists w, rest i = w +:+ rest i'.
Proof.
  induction 1 as [ | | | r1 r2 i cs i1 cs1 i2 cs2 _ [w1 H1] _ [w2 H2]
                 | | | | g r i cs i1 cs1 i2 cs2 _ [w1 H1] _ [w2 H2] | | | ];
    cbn [rest advance] in *;
    try (exists EmptyString; reflexivity);
    try (eexists (String _ EmptyString); reflexivity);
    try assumption.
  - exists (w1 +:+ w2). now rewrite app_str_assoc, <- H2.
  - exists (w1 +:+ w2). now rewrite app_str_assoc, <- H2.
Qed.

Lemma block_end_sound (i : input) (cs : captures) (s' : string) (cs' : captures) :
  block_end i cs = Some (s', cs') -> s' = rest i.
Proof.
  unfold block_end, at_end. cbn [exec].
  destruct (at_eol i); [|discriminate]. now intros [= <- _].
Qed.

(** The repetition of the block pattern ends inside the text it was
    given. *)
Lemma block_loop_suffix (n : nat) (i : input) (cs : captures)
      (s' : string) (cs' : captures) :
  star_loop true (exec block_body) block_end n i cs = Some (s', cs') ->
  exists w, rest i = w +:+ s'.
Proof.
  intros H.
  apply (star_loop_sound true block_body block_end) in H;
    [|intros i0 cs0 k0 x Hx; now apply exec_sound].
  destruct H as (i' & cs'' & Hm & Hk).
  apply block_end_sound in Hk as ->. eapply Matches_suffix; eassumption.
Qed.

Lemma orElse_r {A : Type} (a b : option A) :
  (exists x, b = Some x) -> exists y, orElse a b = Some y.
Proof. intros [x ->]. destruct a; cbn; eauto. Qed.

(** A greedy repetition of a class succeeds whenever the rest of the
    pattern matches after some run of bytes of the class. *)
Lemma exec_greedy_cls_some {A : Type} (cl : cclass) (t s : string) :
  all_chars (class_mem cl) t = true ->
  forall (p : option ascii) (cs : captures)
         (k : input -> captures -> option A),
    (exists x, k (mkInput (last_of p t) s) cs = Some x) ->
    exists y, exec (Star true (Cls cl)) (mkInput p (t +:+ s)) cs k = Some y.
Proof.
  intros Ht p cs k Hk. cbn [exec rest].
  assert (Hgen : forall n p0 t0,
             all_chars (class_mem cl) t0 = true ->
             (String.length (t0 +:+ s) < n)%nat ->
             (exists x, k (mkInput (last_of p0 t0) s) cs = Some x) ->
             exists y,
               star_loop true (exec (Cls cl)) k n (mkInput p0 (t0 +:+ s)) cs
               = Some y).
  { induction n as [|n IH]; intros p0 t0 Ht0 Hn Hk0; [lia|].
    destruct t0 as [|c t0].
    - change (EmptyString +:+ s) with s in *. cbn [last_of] in Hk0.
      cbn [star_loop]. now apply orElse_r.
    - cbn [all_chars] in Ht0. apply andb_prop in Ht0 as [Hc Ht0].
      change (String c t0 +:+ s) with (String c (t0 +:+ s)) in *.
      cbn [star_loop exec rest].
      rewrite Hc. cbn [rest advance].
      assert (Hlt : (String.length (t0 +:+ s)
                     <? String.length (String c (t0 +:+ s)))%nat = true).
      { apply Nat.ltb_lt. cbn. lia. }
      rewrite Hlt.
      destruct (IH (Some c) t0 Ht0) as [y Hy]; [cbn in Hn; lia|exact Hk0|].
      exists y. now apply orElse_l. }
  apply Hgen; [exact Ht|lia|exact Hk].
Qed.

(** One round of the block pattern on a well-formed citation line, up to
    its closing parenthesis. *)
Lemma block_body_upto {A : Type} (q : option ascii) (d name url t : string)
      (cs : captures) (k : input -> captures -> option A) (x : A) :
  well_formed (d, name, url) ->
  exec line_end (mkInput (Some ")"%char) t) cs
    (fun i' cs' => k i' ((1, (cite_line_then d name url t, rest i')) :: cs'))
  = Some x ->
  exec block_body (mkInput q (cite_line_then d name url t)) cs k = Some x.
Proof.
  intros (Hd & Hdig & Hname & Hurl) Hk.
  destruct d as [|c d]; [contradiction|].
  cbn [all_chars] in Hdig. apply andb_prop in Hdig as [Hc Hdig].
  unfold block_body, Seq. cbn [foldr]. rewrite exec_Grp_eq. cbn [rest].
  unfold cite_line_then at 1.
  rewrite exec_Cat_eq. unfold quoteMarker. apply exec_Alt_l.
  rewrite exec_Chr_eq.
  rewrite exec_Cat_eq. apply (exec_greedy_cls Space " "); [reflexivity|reflexivity|].
  cbn [last_of].
  rewrite exec_Cat_eq, exec_Chr_eq.
  rewrite exec_Cat_eq. unfold Plus. rewrite exec_Cat_eq.
  change (String c d +:+ ?X) with (String c (d +:+ X)).
  rewrite exec_Cls_eq by exact Hc.
  apply (exec_greedy_cls Digit d); [exact Hdig|reflexivity|].
  rewrite exec_Cat_eq, exec_Chr_eq. rewrite exec_Cat_eq, exec_Chr_eq.
  rewrite exec_Cat_eq. apply (exec_greedy_cls Space " "); [reflexivity|reflexivity|].
  cbn [last_of].
  rewrite exec_Cat_eq, exec_Chr_eq.
  rewrite exec_Cat_eq.
  apply (exec_lazy_cls (Dot true) (fun ch => negb (Ascii.eqb ch "]")) name).
  { clear -Hname. induction name as [|ch name IH]; [reflexivity|].
    cbn [all_chars] in *. apply andb_prop in Hname as [H1 H2].
    unfold not_newline_or_bracket in H1. apply andb_prop in H1 as [_ H1].
    rewrite H1, (IH H2). reflexivity. }
  { intros q0 ch s0 cs0 Hch. rewrite exec_Cat_eq. cbn [exec rest].
    rewrite Ascii.eqb_sym. apply negb_true_iff in Hch. now rewrite Hch. }
  rewrite exec_Cat_eq, exec_Chr_eq. rewrite exec_Cat_eq, exec_Chr_eq.
  rewrite exec_Cat_eq.
  apply (exec_lazy_cls (Dot true) (fun ch => negb (Ascii.eqb ch ")")) url).
  { clear -Hurl. induction url as [|ch url IH]; [reflexivity|].
    cbn [all_chars] in *. apply andb_prop in Hurl as [H1 H2].
    unfold not_newline_or_paren in H1. apply andb_prop in H1 as [_ H1].
    rewrite H1, (IH H2). reflexivity. }
  { intros q0 ch s0 cs0 Hch. rewrite exec_Cat_eq. cbn [exec rest].
    rewrite Ascii.eqb_sym. apply negb_true_iff in Hch. now rewrite Hch. }
  rewrite exec_Cat_eq, exec_Chr_eq.
  exact Hk.
Qed.

(** At a newline the repetition stops, and [$] holds there. *)
Lemma block_loop_newline (n : nat) (q : option ascii) (s : string) (cs : captures) :
  star_loop true (exec block_body) block_end (S n) (mkInput q (String newline s)) cs
  = Some (String newline s, cs).
Proof.
  cbn [star_loop]. rewrite (exec_starts block_body newline eq_refl). reflexivity.
Qed.

(** The last line of a block that is followed by white space and a line
    break: whatever the rest of the pattern does after it, the search
    succeeds, and it ends somewhere in what follows the line. *)
Lemma last_line_matches (q : option ascii) (d name url ws rest0 : string)
      (cs : captures) (k : input -> captures -> option (string * captures)) :
  well_formed (d, name, url) ->
  all_chars (class_mem Space) ws = true ->
  (forall cs0,
      exists x,
        k (mkInput (last_of (Some ")"%char) ws) (String newline rest0)) cs0
        = Some x) ->
  (forall i cs0 s' cs', k i cs0 = Some (s', cs') -> exists w, rest i = w +:+ s') ->
  exists s' cs' w,
    exec block_body
      (mkInput q (cite_line_then d name url (ws +:+ String newline rest0))) cs k
    = Some (s', cs')
    /\ ws +:+ String newline rest0 = w +:+ s'.
Proof.
  intros Hwf Hws Hex Hsound.
  assert (Hend :
            exists x,
              exec line_end (mkInput (Some ")"%char) (ws +:+ String newline rest0)) cs
                (fun i' cs' =>
                   k i' ((1, (cite_line_then d name url
                                (ws +:+ String newline rest0), rest i')) :: cs'))
              = Some x).
  { unfold line_end, Seq. cbn [foldr]. rewrite exec_Cat_eq.
    apply exec_greedy_cls_some; [exact Hws|].
    rewrite exec_Cat_eq. unfold Opt. cbn [exec].
    apply orElse_r. apply Hex. }
  destruct Hend as [[s' cs'] Hx]. exists s', cs'.
  pose proof (block_body_upto q d name url _ cs k (s', cs') Hwf Hx) as Hb.
  apply exec_sound in Hx as (i' & cs'' & Hm & Hk).
  apply Matches_suffix in Hm as [w1 Hw1]. apply Hsound in Hk as [w2 Hw2].
  cbn [rest] in Hw1. exists (w1 +:+ w2). split; [exact Hb|].
  now rewrite app_str_assoc, <- Hw2.
Qed.

(** The repetition of the block pattern runs through every well-formed
    line of a block and ends somewhere in what follows its last line. *)
Lemma block_lines_then (ws rest0 : string) (items : list (string * string * string)) :
  all_chars (class_mem Space) ws = true ->
  Forall well_formed items ->
  items <> [] ->
  forall n q cs,
    (String.length (render_then items (ws +:+ String newline rest0)) < n)%nat ->
    exists s' cs' w,
      star_loop true (exec block_body) block_end n
        (mkInput q (render_then items (ws +:+ String newline rest0))) cs
      = Some (s', cs')
      /\ ws +:+ String newline rest0 = w +:+ s'.
Proof.
  intros Hws Hwf. induction items as [|[[d name] url] rest IH];
    intros Hne n q cs Hn; [contradiction|].
  inversion Hwf as [|x l Hx Hrest]; subst.
  destruct n as [|n]; [lia|]. cbn [star_loop].
  destruct rest as [|[[d2 name2] url2] rest'].
  - cbn [render_then] in *.
    pose proof (cite_line_longer d name url (ws +:+ String newline rest0)) as Hlong.
    rewrite length_app_str in Hlong. cbn [String.length] in Hlong.
    match goal with
    | |- exists s' cs' w, orElse ?a ?b = _ /\ _ =>
        assert (Ha : exists s' cs' w,
                   a = Some (s', cs')
                   /\ ws +:+ String newline rest0 = w +:+ s')
    end.
    { apply last_line_matches; [exact Hx|exact Hws| |].
      - intros cs0. cbn beta. cbn [rest].
        assert (Hlt : (String.length (String newline rest0)
                       <? String.length
                            (cite_line_then d name url
                               (ws +:+ String newline rest0)))%nat = true).
        { apply Nat.ltb_lt. cbn [String.length]. lia. }
        rewrite Hlt. destruct n as [|n]; [lia|].
        rewrite block_loop_newline. eauto.
      - intros i cs0 s' cs' H.
        destruct (String.length (rest i) <? _)%nat; [|discriminate H].
        eapply block_loop_suffix. exact H. }
    destruct Ha as (s' & cs' & w & Ha & Hw). exists s', cs', w.
    split; [now apply orElse_l|exact Hw].
  - set (s := render_then ((d2, name2, url2) :: rest') (ws +:+ String newline rest0))
      in *.
    assert (Hrender :
              render_then ((d, name, url) :: (d2, name2, url2) :: rest')
                (ws +:+ String newline rest0)
              = cite_line_then d name url (String newline EmptyString +:+ s)).
    { reflexivity. }
    rewrite Hrender in *.
    pose proof (cite_line_longer d name url (String newline EmptyString +:+ s))
      as Hlong.
    assert (Hlong' :
              (String.length (String newline s)
               < String.length
                   (cite_line_then d name url (String newline EmptyString +:+ s)))%nat)
      by exact Hlong.
    cbn [String.length] in Hlong'.
    destruct (IH Hrest ltac:(discriminate) n (Some newline)
                ((1, (cite_line_then d name url (String newline EmptyString +:+ s), s))
                   :: cs))
      as (s' & cs' & w & H & Hw); [lia|].
    exists s', cs', w. split; [|exact Hw]. apply orElse_l.
    apply (block_body_complete q d name url (String newline EmptyString) s);
      [exact Hx|reflexivity|reflexivity|].
    cbn [rest last_of].
    assert (Hlt : (String.length s
                   <? String.length
                        (cite_line_then d name url
                           (String newline EmptyString +:+ s)))%nat = true).
    { apply Nat.ltb_lt. lia. }
    rewrite Hlt. exact H.
Qed.

(** On a block of well-formed lines that is followed by white space and
    a line break, the block pattern matches from the first byte of the
    block, and the match ends somewhere in what follows the last line. *)
Lemma reBlock_matches_block (q : option ascii) (ws rest0 : string)
      (items : list (string * string * string)) :
  all_chars (class_mem Space) ws = true ->
  Forall well_formed items ->
  items <> [] ->
  exists s' cs' w,
    match_here reBlock
      (mkInput q (render_then items (ws +:+ String newline rest0)))
    = Some (s', cs')
    /\ ws +:+ String newline rest0 = w +:+ s'.
Proof.
  intros Hws Hwf Hne. destruct items as [|[[d name] url] rest]; [contradiction|].
  inversion Hwf as [|x l Hx Hrest]; subst.
  unfold match_here. rewrite reBlock_body, !exec_Cat_eq.
  destruct rest as [|[[d2 name2] url2] rest'].
  - cbn [render_then]. apply last_line_matches; [exact Hx|exact Hws| |].
    + intros cs0. cbn beta. cbn [exec rest]. eexists.
      exact (block_loop_newline _ _ _ _).
    + intros i cs0 s' cs' H. cbn [exec] in H.
      eapply block_loop_suffix. exact H.
  - set (s := render_then ((d2, name2, url2) :: rest') (ws +:+ String newline rest0)).
    destruct (block_lines_then ws rest0 ((d2, name2, url2) :: rest') Hws Hrest
                ltac:(discriminate) (S (String.length s)) (Some newline)
                ((1, (cite_line_then d name url (String newline EmptyString +:+ s), s))
                   :: []))
      as (s' & cs' & w & H & Hw); [fold s; lia|].
    exists s', cs', w. split; [|exact Hw].
    apply (block_body_complete q d name url (String newline EmptyString) s);
      [exact Hx|reflexivity|reflexivity|].
    exact H.
Qed.

Lemma render_then_split (items : list (string * string * string)) (trail : string) :
  items <> [] -> exists c r, render_then items trail = String c (r +:+ trail).
Proof.
  induction items as [|[[d name] url] rest IH]; [contradiction|]. intros _.
  destruct rest as [|y rest'].
  - cbn [render_then]. rewrite cite_line_split. eauto.
  - destruct (IH ltac:(discriminate)) as (c & r & Hr).
    exists ">"%char, (line_tail d name url +:+ String newline (String c r)).
    change (render_then ((d, name, url) :: y :: rest') trail)
      with (cite_line_then d name url
              (String newline (render_then (y :: rest') trail))).
    rewrite Hr, cite_line_split, app_str_assoc. reflexivity.
Qed.

(** ** The scan around a match *)

(** A match found where the scan stands, with no match anywhere after
    it, is the only match the scan reports. *)
Lemma scan_at_match (r : regex) (q : option ascii) (c : ascii) (m s' : string)
      (cs : captures) (off : nat) (cur : cursor) :
  match_here r (mkInput q (String c (m +:+ s'))) = Some (s', cs) ->
  cur = Free \/ cur = Within 0 ->
  matches_nowhere r (last_of (Some c) m) s' = true ->
  scan r q (String c (m +:+ s')) off cur
  = [mkFound off (off + S (String.length m)) (String c (m +:+ s')) cs].
Proof.
  intros Hm Hcur Hn.
  assert (Hlen : (String.length (String c (m +:+ s')) - String.length s')%nat
                 = S (String.length m)).
  { cbn [String.length]. rewrite length_app_str. lia. }
  assert (Hnext : scan r (Some c) (m +:+ s') (S off) (Within (String.length m)) = []).
  { replace (Within (String.length m)) with (Within (String.length m + 0))
      by (f_equal; lia).
    rewrite scan_skip. now apply scan_matches_nowhere. }
  destruct Hcur as [-> | ->]; cbn [scan]; rewrite Hm, Hlen, Hnext; reflexivity.
Qed.

Lemma matches_nowhere_prev (r : regex) (s : string) (q q' : option ascii) :
  bol_free r = true -> matches_nowhere r q s = matches_nowhere r q' s.
Proof.
  intros Hb. destruct s as [|c s]; cbn [matches_nowhere]; unfold fails_here;
    rewrite (match_here_prev_irrel r q q' _ Hb); reflexivity.
Qed.

Lemma matches_nowhere_suffix (r : regex) (w : string) :
  forall q s,
    matches_nowhere r q (w +:+ s) = true ->
    matches_nowhere r (last_of q w) s = true.
Proof.
  induction w as [|c w IH]; intros q s H; [exact H|].
  change (String c w +:+ s) with (String c (w +:+ s)) in H.
  cbn [matches_nowhere] in H. apply andb_prop in H as [_ H].
  cbn [last_of]. now apply IH.
Qed.

Lemma reBlock_fails_space (q : option ascii) (c : ascii) (s : string) :
  is_space c = true -> fails_here reBlock q (String c s) = true.
Proof.
  intros Hc. unfold fails_here, match_here.
  rewrite exec_starts; [reflexivity|].
  cbn [reBlock Seq foldr Plus starts quoteMarker Lits orb].
  destruct (Ascii.eqb_spec ">" c) as [<-|_]; [discriminate Hc|].
  destruct (Ascii.eqb_spec "\" c) as [<-|_]; [discriminate Hc|].
  reflexivity.
Qed.

(** White space and a line break before a text with no match add no
    match. *)
Lemma matches_nowhere_after_space (ws rest0 : string) :
  all_chars is_space ws = true ->
  matches_nowhere reBlock None rest0 = true ->
  forall q, matches_nowhere reBlock q (ws +:+ String newline rest0) = true.
Proof.
  intros Hws Hrest. induction ws as [|c ws IH]; intros q.
  - change (EmptyString +:+ String newline rest0) with (String newline rest0).
    cbn [matches_nowhere]. rewrite reBlock_fails_space by reflexivity.
    cbn [andb].
    now rewrite (matches_nowhere_prev reBlock rest0 (Some newline) None
                   reBlock_bol_free).
  - cbn [all_chars] in Hws. apply andb_prop in Hws as [Hc Hws].
    change (String c ws +:+ String newline rest0)
      with (String c (ws +:+ String newline rest0)).
    cbn [matches_nowhere]. rewrite (reBlock_fails_space q c _ Hc).
    cbn [andb]. now apply IH.
Qed.

(** When every match that starts in the first [n] bytes also ends there,
    the scan reaches offset [n] free to try a match at it. *)
Lemma scan_split (r : regex) (n : nat) :
  forall s q off cur,
    (n <= String.length s)%nat ->
    (skip_of cur <= n)%nat ->
    Forall (fun m => (f_start m < off + n)%nat -> (f_end m <= off + n)%nat)
           (scan r q s off cur) ->
    exists ms cur',
      scan r q s off cur
      = ms ++ scan r (prev_at q s n) (drop_str n s) (off + n) cur'
      /\ (cur' = Free \/ cur' = Within 0).
Proof.
  induction n as [|n IH]; intros s q off cur Hlen Hskip Hall.
  - exists [], cur. rewrite Nat.add_0_r.
    split; [destruct s; reflexivity|].
    destruct cur as [|[|k]]; [now left|now right|cbn in Hskip; lia].
  - destruct s as [|c s]; [cbn in Hlen; lia|].
    cbn [String.length] in Hlen.
    assert (Hstep : forall cur0 ms0,
               (skip_of cur0 <= n)%nat ->
               Forall (fun m => (f_start m < off + S n)%nat
                                -> (f_end m <= off + S n)%nat)
                      (scan r (Some c) s (S off) cur0) ->
               exists ms cur',
                 ms0 ++ scan r (Some c) s (S off) cur0
                 = ms ++ scan r (prev_at q (String c s) (S n))
                           (drop_str (S n) (String c s)) (off + S n) cur'
                 /\ (cur' = Free \/ cur' = Within 0)).
    { intros cur0 ms0 Hk H0.
      replace (off + S n)%nat with (S off + n)%nat in * by lia.
      destruct (IH s (Some c) (S off) cur0) as (ms & cur' & E & Hc);
        [lia|exact Hk|exact H0|].
      exists (ms0 ++ ms), cur'. split; [|exact Hc].
      cbn [prev_at drop_str]. rewrite E. now rewrite <- app_assoc. }
    destruct cur as [|[|k]]; cbn [scan] in *.
    + destruct (match_here r _) as [[s' cs]|].
      * destruct (String.length (String c s) - String.length s')%nat as [|j].
        -- apply (Hstep Free [_]); [cbn; lia|now inversion Hall].
        -- inversion Hall as [|x l Hx Hl]; subst. cbn [f_start f_end] in Hx.
           apply (Hstep (Within j) [_]); [cbn; lia|exact Hl].
      * apply (Hstep Free []); [cbn; lia|exact Hall].
    + destruct (match_here r _) as [[s' cs]|].
      * destruct (String.length (String c s) - String.length s')%nat as [|j].
        -- apply (Hstep Free []); [cbn; lia|exact Hall].
        -- inversion Hall as [|x l Hx Hl]; subst. cbn [f_start f_end] in Hx.
           apply (Hstep (Within j) [_]); [cbn; lia|exact Hl].
      * apply (Hstep Free []); [cbn; lia|exact Hall].
    + apply (Hstep (Within k) []); [cbn in *; lia|exact Hall].
Qed.

(** ** The line pattern after a block *)

Lemma reLine_prev_bol (s : string) :
  match_here reLine (mkInput (Some newline) s)
  = match_here reLine (mkInput None s).
Proof.
  unfold match_here, reLine, Seq. cbn [foldr].
  rewrite (exec_Cat_eq Bol _ (mkInput (Some newline) s)),
          (exec_Cat_eq Bol _ (mkInput None s)).
  rewrite !exec_Bol_eq by reflexivity.
  apply exec_prev_irrel; [reflexivity|]. intros; reflexivity.
Qed.

Lemma scan_head_prev (r : regex) (q q' : option ascii) (s : string)
      (off : nat) (cur : cursor) :
  match_here r (mkInput q s) = match_here r (mkInput q' s) ->
  scan r q s off cur = scan r q' s off cur.
Proof.
  intros H. destruct s as [|c s];
    destruct cur as [|[|k]]; cbn [scan]; try reflexivity;
    rewrite H; reflexivity.
Qed.

Lemma line_fields_shift (d : nat) (l : list found) :
  map (fun m => (group_text m 2, group_text m 3)) (map (shift d) l)
  = map (fun m => (group_text m 2, group_text m 3)) l.
Proof. rewrite map_map. apply map_ext. intros m. reflexivity. Qed.

(** White space and a line break are stepped over: the line matches
    after them are those of the text that follows, read on its own. *)
Lemma reLine_scan_ws (ws rest0 : string) :
  all_chars is_space ws = true ->
  forall q off cur,
    cur = Free \/ cur = Within 0 ->
    map (fun m => (group_text m 2, group_text m 3))
        (scan reLine q (ws +:+ String newline rest0) off cur)
    = map (fun m => (group_text m 2, group_text m 3))
          (scan reLine None rest0 0 Free).
Proof.
  induction ws as [|c ws IH]; intros Hws q off cur Hcur.
  - change (EmptyString +:+ String newline rest0) with (String newline rest0).
    assert (E : scan reLine q (String newline rest0) off cur
                = scan reLine (Some newline) rest0 (S off) Free).
    { destruct Hcur as [-> | ->]; cbn [scan];
        rewrite reLine_fails_newline; reflexivity. }
    rewrite E.
    rewrite (scan_head_prev reLine (Some newline) None) by apply reLine_prev_bol.
    change (S off) with (0 + S off)%nat.
    rewrite scan_shift. apply line_fields_shift.
  - cbn [all_chars] in Hws. apply andb_prop in Hws as [Hc Hws].
    change (String c ws +:+ String newline rest0)
      with (String c (ws +:+ String newline rest0)).
    assert (E : scan reLine q (String c (ws +:+ String newline rest0)) off cur
                = scan reLine (Some c) (ws +:+ String newline rest0) (S off) Free).
    { destruct Hcur as [-> | ->]; cbn [scan];
        rewrite (reLine_fails_space _ _ _ Hc); reflexivity. }
    rewrite E. apply IH; [exact Hws|now left].
Qed.

(** The line pattern finds the well-formed lines of a block, one match
    per line and in order, and then the citation lines of the text after
    the block. *)
Lemma reLine_scan_block (items : list (string * string * string))
      (ws rest0 : string) :
  Forall well_formed items ->
  all_chars is_space ws = true ->
  items <> [] ->
  forall q off cur,
    at_bol (mkInput q EmptyString) = true ->
    cur = Free \/ cur = Within 0 ->
    map (fun m => (group_text m 2, group_text m 3))
        (scan reLine q (render_then items (ws +:+ String newline rest0)) off cur)
    = map (fun it => (snd (fst it), snd it)) items
      ++ map (fun m => (group_text m 2, group_text m 3))
           (scan reLine None rest0 0 Free).
Proof.
  intros Hwf Hws.
  induction items as [|[[d name] url] rest IH]; intros Hne q off cur Hq Hcur;
    [contradiction|].
  inversion Hwf as [|x l Hx Hrest]; subst. specialize (IH Hrest).
  cbn [render_then map fst snd app].
  set (t := match rest with
            | [] => ws +:+ String newline rest0
            | _ :: _ => String newline (render_then rest (ws +:+ String newline rest0))
            end).
  destruct (reLine_complete q d name url t Hq Hx) as (cs & Hm & Hg).
  rewrite cite_line_split in *.
  assert (Hlen : (String.length (String ">" (line_tail d name url +:+ t))
                  - String.length t)%nat
                 = S (String.length (line_tail d name url))).
  { cbn [String.length]. rewrite length_app_str. lia. }
  assert (Hstep :
            scan reLine q (String ">" (line_tail d name url +:+ t)) off cur
            = mkFound off (off + S (String.length (line_tail d name url)))
                (String ">" (line_tail d name url +:+ t)) cs
              :: scan reLine (last_of (Some ">"%char) (line_tail d name url)) t
                   (S off + String.length (line_tail d name url)) (Within 0)).
  { destruct Hcur as [-> | ->]; cbn [scan]; rewrite Hm, Hlen;
      rewrite <- (scan_skip reLine (line_tail d name url) t);
      now rewrite Nat.add_0_r. }
  rewrite Hstep. cbn [map].
  destruct (Hg off (off + S (String.length (line_tail d name url)))
              (String ">" (line_tail d name url +:+ t))) as [-> ->].
  f_equal. subst t. destruct rest as [|y rest'].
  - cbn [map app]. apply reLine_scan_ws; [exact Hws|now right].
  - cbn [scan]. rewrite reLine_fails_newline.
    apply IH; [discriminate|reflexivity|now left].
Qed.

Lemma ends_by_matches (r : regex) (n : nat) (text : string) :
  Forall (ends_by n) (FindAllStringIndex r text) ->
  Forall (fun m => (f_start m < 0 + n)%nat -> (f_end m <= 0 + n)%nat)
         (allMatches r text).
Proof.
  unfold FindAllStringIndex. generalize (allMatches r text). intros l.
  induction l as [|m l IH]; intros H; [constructor|].
  cbn [map] in H. inversion H as [|x l' Hx Hl]; subst.
  constructor; [exact Hx|now apply IH].
Qed.

(** Claim C3, as amended.  A text in which the block pattern matches at
    no position gives the empty sequence (there is no error result), and
    so does every text that holds neither a [>] nor a backslash.  A block
    in the middle of a document is not passed over: when well-formed
    citation lines are followed by white space, a line break and any text
    in which the block pattern matches nowhere, and every match that
    starts before the block also ends before it, the block is the last
    match and its references are returned, one per line and in order,
    followed by those of the citation lines the text after the block may
    hold. *)
Theorem extract_no_block (cid aid : string) :
  (forall text,
      matches_nowhere reBlock None text = true ->
      extractReferencesBlock cid aid text = [])
  /\ (forall text,
         no_marker text = true -> extractReferencesBlock cid aid text = [])
  /\ (forall (p ws rest0 : string) (items : list (string * string * string)),
         items <> [] ->
         Forall well_formed items ->
         all_chars is_space ws = true ->
         Forall (ends_by (String.length p))
                (FindAllStringIndex reBlock
                   (p +:+ render_then items (ws +:+ String newline rest0))) ->
         matches_nowhere reBlock None rest0 = true ->
         extractReferencesBlock cid aid
           (p +:+ render_then items (ws +:+ String newline rest0))
         = map (item_ref cid aid) items ++ references_of_block cid aid rest0).
Proof.
  split; [apply extract_matches_nowhere|].
  split; [apply extract_no_marker|].
  intros p ws rest0 items Hne Hwf Hws Hends Hrest.
  apply ends_by_matches in Hends.
  destruct (scan_split reBlock (String.length p)
              (p +:+ render_then items (ws +:+ String newline rest0)) None 0 Free)
    as (ms & cur' & Hscan & Hcur);
    [rewrite length_app_str; lia|cbn; lia|exact Hends|].
  rewrite drop_str_app in Hscan.
  destruct (reBlock_matches_block
              (prev_at None (p +:+ render_then items (ws +:+ String newline rest0))
                 (String.length p))
              ws rest0 items Hws Hwf Hne)
    as (s' & cs' & w & Hm & Hw).
  destruct (render_then_split items (ws +:+ String newline rest0) Hne)
    as (c & r & Hr).
  assert (Hr' : render_then items (ws +:+ String newline rest0)
                = String c ((r +:+ w) +:+ s')).
  { now rewrite app_str_assoc, <- Hw. }
  assert (Hnone : matches_nowhere reBlock (last_of (Some c) (r +:+ w)) s' = true).
  { pose proof (matches_nowhere_after_space ws rest0 Hws Hrest None) as H.
    rewrite Hw in H. apply matches_nowhere_suffix in H.
    now rewrite (matches_nowhere_prev reBlock s' _ (last_of None w)
                   reBlock_bol_free). }
  assert (Hlast :
            allMatches reBlock
              (p +:+ render_then items (ws +:+ String newline rest0))
            = ms ++ [mkFound (0 + String.length p)
                       (0 + String.length p + S (String.length (r +:+ w)))
                       (String c ((r +:+ w) +:+ s')) cs']).
  { unfold allMatches. rewrite Hscan. f_equal.
    rewrite Hr' in Hm |- *. now apply scan_at_match. }
  rewrite (extract_last cid aid _ ms _ Hlast).
  cbn [f_start Nat.add]. rewrite drop_str_app.
  rewrite !references_of_block_map. unfold allMatches.
  pose proof (reLine_scan_block items ws rest0 Hwf Hws Hne None 0 Free eq_refl
                (or_introl eq_refl)) as Hlines.
  transitivity
    (map (fun nu : string * string => mkRef cid aid (fst nu) (snd nu))
         (map (fun m => (group_text m 2, group_text m 3))
              (scan reLine None
                 (render_then items (ws +:+ String newline rest0)) 0 Free))).
  - rewrite map_map. apply map_ext. intros m. reflexivity.
  - rewrite Hlines, map_app, !map_map. f_equal; apply map_ext; intros x; reflexivity.
Qed.

(** A remark without a citation line has no reference; a block between
    an earlier block and a closing remark is the last match, and its two
    references are returned. *)
Lemma extract_no_block_witness :
  matches_nowhere reBlock None ("See [1] > [A](http://a)" +:+ nl +:+ "bye") = true
  /\ extractReferencesBlock "c1" "app" ("See [1] > [A](http://a)" +:+ nl +:+ "bye")
     = []
  /\ FindAllStringIndex reBlock
       (("> [9]. [Z](z)" +:+ nl +:+ "Sources:" +:+ nl)
        +:+ render_then [("1", "A", "http://a"); ("2", "B", "http://b")]
              (" " +:+ String newline "Thanks for reading."))
     = [(0, 13); (23, 65)]%nat
  /\ extractReferencesBlock "c1" "app"
       (("> [9]. [Z](z)" +:+ nl +:+ "Sources:" +:+ nl)
        +:+ render_then [("1", "A", "http://a"); ("2", "B", "http://b")]
              (" " +:+ String newline "Thanks for reading."))
     = [mkRef "c1" "app" "A" "http://a"; mkRef "c1" "app" "B" "http://b"].
Proof.
  destruct (extract_no_block "c1" "app") as (Hnone & _ & Hblock).
  split; [vm_compute; reflexivity|].
  split; [apply Hnone; vm_compute; reflexivity|].
  split; [vm_compute; reflexivity|].
  rewrite (Hblock ("> [9]. [Z](z)" +:+ nl +:+ "Sources:" +:+ nl) " "
             "Thanks for reading."
             [("1", "A", "http://a"); ("2", "B", "http://b")]).
  - vm_compute. reflexivity.
  - discriminate.
  - repeat constructor; discriminate.
  - reflexivity.
  - assert (E : FindAllStringIndex reBlock
                  (("> [9]. [Z](z)" +:+ nl +:+ "Sources:" +:+ nl)
                   +:+ render_then [("1", "A", "http://a"); ("2", "B", "http://b")]
                         (" " +:+ String newline "Thanks for reading."))
                = [(0, 13); (23, 65)]%nat) by (vm_compute; reflexivity).
    rewrite E.
    constructor; [unfold ends_by; vm_compute; lia|].
    constructor; [unfold ends_by; vm_compute; lia|].
    constructor.
  - vm_compute. reflexivity.
Defined.
